(** * LogitTracker: a shallow embedding of [outlines/processors/tracking.py]

    The tracker is a Python object with mutable fields and methods that may
    raise.  It is embedded as a record [LogitTracker] and a state monad whose
    computations return either a value or a raised exception together with the
    tracker as it stands at that moment: a Python exception does not roll back
    the mutations made before it.

    torch, numpy, the tokenizer and the wrapped processor are collaborators of
    the module and not part of it.  The numeric ones are gathered in the class
    [NumLib]; tokenizer and delegate are fields of the tracker. *)

From Stdlib Require Import String.
From Stdlib Require Import List ZArith Lia Bool Permutation Sorted Arith.
Import ListNotations.
Local Open Scope string_scope.
Local Open Scope list_scope.
Local Open Scope Z_scope.

(** ** Exceptions *)

(** The Python exceptions that the module raises itself or that the indexing
    and numpy calls it performs may raise.  The spec names [BatchLogits] and
    [BatchSequences] InvalidBatchSize, [NoTokenizerForMapping]
    NoTokenizerAvailable and [ImportError] MissingDependency. *)
Inductive value_error : Type :=
| BatchLogits (n : nat)       (* "Got batch size {n}" *)
| BatchSequences (n : nat)    (* "Got {n} sequences" *)
| NumpyShape.                 (* column_stack of nothing, mismatched shapes *)

Inductive exn : Type :=
| ValueError (v : value_error)
| IndexError
| NoTokenizerForMapping       (* AttributeError raised by get_vocab_mapping *)
| NoneHasNoAttribute          (* AttributeError: attribute access on None *)
| ImportError
| DelegateRaised (msg : string).

Inductive result (A : Type) : Type :=
| Ok (a : A)
| Raise (e : exn).
Arguments Ok {A} a.
Arguments Raise {A} e.

(** ** The state-and-exception monad *)

Definition M (S A : Type) : Type := S -> result A * S.

Definition ret {S A} (a : A) : M S A := fun s => (Ok a, s).

Definition bind {S A B} (m : M S A) (f : A -> M S B) : M S B :=
  fun s => match m s with
           | (Ok a, s') => f a s'
           | (Raise e, s') => (Raise e, s')
           end.

Definition raise {S A} (e : exn) : M S A := fun s => (Raise e, s).
Definition get {S} : M S S := fun s => (Ok s, s).
Definition lift {S A} (r : result A) : M S A := fun s => (r, s).

(** A computation that leaves the state as it found it, whatever it
    returns. *)
Definition preserves {S A} (m : M S A) : Prop := forall s, snd (m s) = s.

Declare Scope py_scope.
Delimit Scope py_scope with py.
Notation "x <- m ;; k" := (bind m (fun x => k))
  (at level 100, m at next level, right associativity) : py_scope.
Notation "m ;;; k" := (bind m (fun _ => k))
  (at level 100, right associativity) : py_scope.

(** [for x in xs: body x], collecting what each iteration yields. *)
Fixpoint for_each {S A B} (xs : list A) (body : A -> M S (list B)) : M S (list B) :=
  match xs with
  | [] => ret []
  | x :: xs' => (ys <- body x ;; zs <- for_each xs' body ;; ret (ys ++ zs))%py
  end.

(** ** Python indexing and slicing *)

(** [l[0]] *)
Definition index0 {A} (l : list A) : result A :=
  match l with
  | x :: _ => Ok x
  | [] => Raise IndexError
  end.

(** [l[i]] for an index that is a non-negative machine integer. *)
Definition index_nat {A} (l : list A) (i : nat) : result A :=
  match nth_error l i with
  | Some x => Ok x
  | None => Raise IndexError
  end.

(** [l[i]] for a Python integer: a negative index counts from the end. *)
Definition index_int {A} (l : list A) (i : Z) : result A :=
  let n := Z.of_nat (length l) in
  if i <? 0
  then (if i + n <? 0 then Raise IndexError else index_nat l (Z.to_nat (i + n)))
  else index_nat l (Z.to_nat i).

(** [l[:e]] *)
Definition slice_to {A} (e : Z) (l : list A) : list A :=
  if e <? 0
  then firstn (Z.to_nat (Z.max 0 (Z.of_nat (length l) + e))) l
  else firstn (Z.to_nat e) l.

(** [l[s:]] *)
Definition slice_from {A} (s : Z) (l : list A) : list A :=
  if s <? 0
  then skipn (Z.to_nat (Z.max 0 (Z.of_nat (length l) + s))) l
  else skipn (Z.to_nat s) l.

(** [s[n:]] on a string, [n] a length. *)
Fixpoint string_from (n : nat) (s : string) : string :=
  match n, s with
  | O, _ => s
  | S n', String _ s' => string_from n' s'
  | S _, EmptyString => EmptyString
  end.

(** [[f(x) for x in xs]] where [f] may raise. *)
Fixpoint map_result {A B} (f : A -> result B) (xs : list A) : result (list B) :=
  match xs with
  | [] => Ok []
  | x :: xs' =>
      match f x with
      | Raise e => Raise e
      | Ok y => match map_result f xs' with
                | Raise e => Raise e
                | Ok ys => Ok (y :: ys)
                end
      end
  end.

(** Sequencing of steps that may raise but touch no state. *)
Definition rbind {A B} (r : result A) (f : A -> result B) : result B :=
  match r with
  | Ok a => f a
  | Raise e => Raise e
  end.

Declare Scope res_scope.
Delimit Scope res_scope with res.
Notation "x <~ r ;; k" := (rbind r (fun x => k))
  (at level 100, r at next level, right associativity) : res_scope.

(** [np.where(bs)[0]]: the indices at which [bs] holds, ascending. *)
Fixpoint where_from (i : nat) (bs : list bool) : list nat :=
  match bs with
  | [] => []
  | b :: bs' => if b then i :: where_from (S i) bs' else where_from (S i) bs'
  end.

Definition np_where (bs : list bool) : list nat := where_from 0 bs.

(** [np.column_stack] of vectors.  A matrix is kept as the list of its
    columns; numpy refuses an empty list and columns of different heights. *)
Definition stackable {A} (cols : list (list A)) : bool :=
  match cols with
  | [] => false
  | c :: cs => forallb (fun c' => (length c' =? length c)%nat) cs
  end.

Definition column_stack {A} (cols : list (list A)) : result (list (list A)) :=
  if stackable cols then Ok cols else Raise (ValueError NumpyShape).

(** ** The numeric collaborators *)

(** What the module uses of torch and numpy: a type of floating-point scores,
    the comparison [<=] on them, [torch.softmax] over a vector and
    [np.argsort] of a vector. *)
Class NumLib : Type := {
  score : Type;
  score_le : score -> score -> bool;
  softmax : list score -> list score;
  argsort : list score -> list nat
}.

(** [v[idx]] for an index array [idx] as numpy yields them. *)
Definition gather {A} (v : list A) (idx : list nat) : result (list A) :=
  map_result (index_nat v) idx.

(** What the libraries promise of these operations: softmax keeps the shape,
    and [argsort v] lists the indices of [v], each once, so that the values
    read in that order ascend. *)
Class NumLaws (N : NumLib) : Prop := {
  softmax_length : forall v, length (softmax v) = length v;
  argsort_perm : forall v, Permutation (argsort v) (seq 0 (length v));
  argsort_sorted : forall v vs,
      gather v (argsort v) = Ok vs ->
      StronglySorted (fun a b => score_le a b = true) vs
}.

(** ** Tokenizer and delegate *)

(** [Tokenizer.decode]: a list of token ids to a list of strings. *)
Record Tokenizer : Type := { decode : list Z -> list string }.

Section Tracker.
Context {N : NumLib}.

(** A tensor of shape (batch, vocabulary) is the list of its rows. *)
Definition tensor : Type := list (list score).

(** The wrapped processor.  [delegate_tokenizer] is [None] when the object has
    no attribute [tokenizer], [Some None] when it has one that holds [None]. *)
Record Processor : Type := {
  delegate_process_logits : list (list Z) -> tensor -> result tensor;
  delegate_tokenizer : option (option Tokenizer)
}.

(** ** The tracker *)

Record LogitTracker : Type := {
  processor : option Processor;
  unstructured_logits : list (list score);
  structured_logits : list (list score);
  vocab_tokens : option (list string);
  chosen_tokens : list Z;
  _started : bool;
  tokenizer : option Tokenizer
}.

Definition set_unstructured_logits v (t : LogitTracker) : LogitTracker :=
  {| processor := processor t; unstructured_logits := v;
     structured_logits := structured_logits t; vocab_tokens := vocab_tokens t;
     chosen_tokens := chosen_tokens t; _started := _started t;
     tokenizer := tokenizer t |}.

Definition set_structured_logits v (t : LogitTracker) : LogitTracker :=
  {| processor := processor t; unstructured_logits := unstructured_logits t;
     structured_logits := v; vocab_tokens := vocab_tokens t;
     chosen_tokens := chosen_tokens t; _started := _started t;
     tokenizer := tokenizer t |}.

Definition set_vocab_tokens v (t : LogitTracker) : LogitTracker :=
  {| processor := processor t; unstructured_logits := unstructured_logits t;
     structured_logits := structured_logits t; vocab_tokens := v;
     chosen_tokens := chosen_tokens t; _started := _started t;
     tokenizer := tokenizer t |}.

Definition set_chosen_tokens v (t : LogitTracker) : LogitTracker :=
  {| processor := processor t; unstructured_logits := unstructured_logits t;
     structured_logits := structured_logits t; vocab_tokens := vocab_tokens t;
     chosen_tokens := v; _started := _started t;
     tokenizer := tokenizer t |}.

Definition set_started v (t : LogitTracker) : LogitTracker :=
  {| processor := processor t; unstructured_logits := unstructured_logits t;
     structured_logits := structured_logits t; vocab_tokens := vocab_tokens t;
     chosen_tokens := chosen_tokens t; _started := v;
     tokenizer := tokenizer t |}.

Definition set_tokenizer v (t : LogitTracker) : LogitTracker :=
  {| processor := processor t; unstructured_logits := unstructured_logits t;
     structured_logits := structured_logits t; vocab_tokens := vocab_tokens t;
     chosen_tokens := chosen_tokens t; _started := _started t;
     tokenizer := v |}.

Definition modify (f : LogitTracker -> LogitTracker) : M LogitTracker unit :=
  fun t => (Ok tt, f t).

(** [LogitTracker.__init__] *)
Definition init (p : option Processor) : LogitTracker :=
  {| processor := p;
     unstructured_logits := [];
     structured_logits := [];
     vocab_tokens := None;
     chosen_tokens := [];
     _started := false;
     tokenizer := match p with
                  | Some d => match delegate_tokenizer d with
                              | Some tk => tk
                              | None => None
                              end
                  | None => None
                  end |}.

(** [LogitTracker.process_logits] *)
Definition process_logits (input_ids : list (list Z)) (logits : tensor)
  : M LogitTracker tensor :=
  (if (1 <? length logits)%nat
   then raise (ValueError (BatchLogits (length logits)))
   else if (1 <? length input_ids)%nat
   then raise (ValueError (BatchSequences (length input_ids)))
   else
     row <- lift (index0 logits) ;;
     modify (fun t => set_unstructured_logits (unstructured_logits t ++ [row]) t) ;;;
     t <- get ;;
     (if _started t
      then ids <- lift (index0 input_ids) ;;
           if (1 <? length ids)%nat
           then modify (fun t => set_chosen_tokens
                                   (chosen_tokens t ++ [last ids 0]) t)
           else modify (set_started true)
      else modify (set_started true)) ;;;
     match processor t with
     | Some d =>
         processed <- lift (delegate_process_logits d input_ids logits) ;;
         prow <- lift (index0 processed) ;;
         modify (fun t => set_structured_logits (structured_logits t ++ [prow]) t) ;;;
         ret processed
     | None =>
         modify (fun t => set_structured_logits (structured_logits t ++ [row]) t) ;;;
         ret logits
     end)%py.

(** [LogitTracker.clear] *)
Definition clear : M LogitTracker unit :=
  (modify (set_unstructured_logits []) ;;;
   modify (set_structured_logits []) ;;;
   modify (set_chosen_tokens []))%py.

(** A generation loop: the calls of [process_logits] in order, each with its
    token history and its scores.  The loop stops at the first exception. *)
Fixpoint process_all (calls : list (list (list Z) * tensor))
  : M LogitTracker (list tensor) :=
  match calls with
  | [] => ret []
  | (ids, lg) :: rest =>
      (out <- process_logits ids lg ;;
       outs <- process_all rest ;;
       ret (out :: outs))%py
  end.

(** ** Views of the stores *)

(** The dictionary with the keys ["unstructured"] and ["structured"]; each
    matrix has one column per recorded position. *)
Record views : Type := {
  unstructured : list (list score);
  structured : list (list score)
}.

(** [LogitTracker.get_probabilities] *)
Definition get_probabilities : M LogitTracker views :=
  (t <- get ;;
   let unstructured_probs := map softmax (unstructured_logits t) in
   let structured_probs := map softmax (structured_logits t) in
   u <- lift (column_stack unstructured_probs) ;;
   s <- lift (column_stack structured_probs) ;;
   ret {| unstructured := u; structured := s |})%py.

(** [LogitTracker.get_logits] *)
Definition get_logits : M LogitTracker views :=
  (t <- get ;;
   u <- lift (column_stack (unstructured_logits t)) ;;
   s <- lift (column_stack (structured_logits t)) ;;
   ret {| unstructured := u; structured := s |})%py.

(** [np.maximum] of two vectors, with numpy's broadcasting of a vector of
    length one. *)
Definition score_max (a b : score) : score := if score_le a b then b else a.

Fixpoint zip_max (a b : list score) : list score :=
  match a, b with
  | x :: a', y :: b' => score_max x y :: zip_max a' b'
  | _, _ => []
  end.

Definition maximum (a b : list score) : result (list score) :=
  if (length a =? length b)%nat then Ok (zip_max a b)
  else match a, b with
       | [x], _ => Ok (map (score_max x) b)
       | _, [y] => Ok (map (fun x => score_max x y) a)
       | _, _ => Raise (ValueError NumpyShape)
       end.

(** ** Vocabulary table *)

(** [LogitTracker.get_vocab_mapping] *)
Definition get_vocab_mapping : M LogitTracker (list string) :=
  (t <- get ;;
   match tokenizer t with
   | None => raise NoTokenizerForMapping
   | Some tk =>
       match vocab_tokens t with
       | Some vocab => ret vocab
       | None =>
           first <- lift (index0 (unstructured_logits t)) ;;
           let vocab_size := length first in
           vocab <- lift (map_result
                            (fun i => index0 (decode tk [Z.of_nat i]))
                            (seq 0 vocab_size)) ;;
           modify (set_vocab_tokens (Some vocab)) ;;;
           ret vocab
       end
   end)%py.

(** ** Sequence reconstruction *)

(** [LogitTracker.sequence_up_to]; [pos] is [None] when the argument is
    omitted. *)
Definition sequence_up_to (pos : option Z) : M LogitTracker string :=
  (t <- get ;;
   match chosen_tokens t with
   | [] => ret ""
   | _ :: _ =>
       let tk := match processor t with
                 | Some d => match delegate_tokenizer d with
                             | Some dtk => dtk
                             | None => tokenizer t
                             end
                 | None => tokenizer t
                 end in
       let end_pos := match pos with
                      | None => Z.of_nat (length (chosen_tokens t))
                      | Some p => p
                      end in
       let tokens_to_decode := slice_to end_pos (chosen_tokens t) in
       match tk with
       | None => raise NoneHasNoAttribute
       | Some k => ret (String.concat "" (decode k tokens_to_decode))
       end
   end)%py.

(** ** Top-token query *)

(** The argument [positions]: omitted, one integer, or a list. *)
Inductive positions_arg : Type :=
| AllPositions
| OnePosition (p : Z)
| PositionList (ps : list Z).

(** One entry of a report's ["tokens"]; [logit_values] holds the pair of
    ["unstructured_logit"] and ["structured_logit"] when they are asked for. *)
Record token_info : Type := {
  token : string;
  unstructured_prob : score;
  structured_prob : score;
  is_chosen : bool;
  logit_values : option (score * score)
}.

Record report : Type := {
  position : Z;
  text_so_far : string;
  tokens : list token_info
}.

(** [np.argsort(max_probs)[-k_actual:][::-1]] with
    [k_actual = min(k, len(max_probs))]. *)
Definition top_indices (k : Z) (max_probs : list score) : list nat :=
  let k_actual := Z.min k (Z.of_nat (length max_probs)) in
  rev (slice_from (- k_actual) (argsort max_probs)).

(** The dictionary built for one index of [top_indices]. *)
Definition build_token_info (vocab : list string) (u_probs s_probs : list score)
    (logit_cols : option (list score * list score)) (next_token : string)
    (idx : nat) : result token_info :=
  (tok <~ index_nat vocab idx ;;
   up <~ index_nat u_probs idx ;;
   sp <~ index_nat s_probs idx ;;
   lv <~ match logit_cols with
         | Some (u_logits, s_logits) =>
             ul <~ index_nat u_logits idx ;;
             sl <~ index_nat s_logits idx ;;
             Ok (Some (ul, sl))
         | None => Ok None
         end ;;
   Ok {| token := tok; unstructured_prob := up; structured_prob := sp;
         is_chosen := String.eqb tok next_token; logit_values := lv |})%res.

(** The body of the loop over [positions]: no report for a position at or
    past the end of the unstructured store, one report otherwise. *)
Definition top_tokens_at (k : Z) (probs : views) (logits : option views)
    (vocab : list string) (pos : Z) : M LogitTracker (list report) :=
  (t <- get ;;
   if Z.of_nat (length (unstructured_logits t)) <=? pos then ret []
   else
     text <- sequence_up_to (Some pos) ;;
     u_probs <- lift (index_int (unstructured probs) pos) ;;
     s_probs <- lift (index_int (structured probs) pos) ;;
     logit_cols <- match logits with
                   | Some lg =>
                       u_logits <- lift (index_int (unstructured lg) pos) ;;
                       s_logits <- lift (index_int (structured lg) pos) ;;
                       ret (Some (u_logits, s_logits))
                   | None => ret None
                   end ;;
     max_probs <- lift (maximum u_probs s_probs) ;;
     let idxs := top_indices k max_probs in
     next_token <- (if pos <? Z.of_nat (length (structured_logits t)) - 1
                    then nxt <- sequence_up_to (Some (pos + 1)) ;;
                         ret (string_from (String.length text) nxt)
                    else ret "") ;;
     infos <- lift (map_result
                      (build_token_info vocab u_probs s_probs logit_cols next_token)
                      idxs) ;;
     ret [ {| position := pos; text_so_far := text; tokens := infos |} ])%py.

(** The list of positions the query loops over: all those of the structured
    store when none is given, the one given, or the list given. *)
Definition resolve_positions (positions : positions_arg) (t : LogitTracker)
  : list Z :=
  match positions with
  | AllPositions => map Z.of_nat (seq 0 (length (structured_logits t)))
  | OnePosition p => [p]
  | PositionList ps => ps
  end.

(** [LogitTracker.get_top_tokens] *)
Definition get_top_tokens (k : Z) (positions : positions_arg)
    (include_logits : bool) : M LogitTracker (list report) :=
  (t <- get ;;
   let positions := resolve_positions positions t in
   probs <- get_probabilities ;;
   logits <- (if include_logits
              then lg <- get_logits ;; ret (Some lg)
              else ret None) ;;
   vocab <- get_vocab_mapping ;;
   for_each positions (top_tokens_at k probs logits vocab))%py.

(** ** Tabular export *)

(** One record handed to [pd.DataFrame]. *)
Record row : Type := {
  row_position : nat;
  row_token : string;
  natural : score;
  constrained : score;
  chosen : bool
}.

(** The indices kept at one position when [min_value] is given:
    [np.where(max_vals >= min_value)[0]], then, when there are any, the ones
    the last ten places of the argsort of their values name. *)
Definition threshold_indices (max_vals : list score) (min_value : score)
  : result (list nat) :=
  let valid_indices := np_where (map (score_le min_value) max_vals) in
  if (0 <? length valid_indices)%nat
  then (vals <~ gather max_vals valid_indices ;;
        gather valid_indices (slice_from (-10) (argsort vals)))%res
  else Ok valid_indices.

(** [token == chosen_token], where [chosen_token] may be [None]. *)
Definition eq_chosen (tok : string) (chosen_token : option string) : bool :=
  match chosen_token with
  | Some c => String.eqb tok c
  | None => false
  end.

Definition build_row (vocab : list string) (u_vals s_vals : list score)
    (chosen_token : option string) (pos idx : nat) : result row :=
  (tok <~ index_nat vocab idx ;;
   n <~ index_nat u_vals idx ;;
   c <~ index_nat s_vals idx ;;
   Ok {| row_position := pos; row_token := tok; natural := n;
         constrained := c; chosen := eq_chosen tok chosen_token |})%res.

(** The body of the loop over the columns of [values]. *)
Definition rows_at (values : views) (min_value : option score)
    (vocab : list string) (chosen_log : list Z) (pos : nat)
  : result (list row) :=
  (u_vals <~ index_nat (unstructured values) pos ;;
   s_vals <~ index_nat (structured values) pos ;;
   chosen_token <~ (if (pos <? length chosen_log)%nat
                    then c <~ index_nat chosen_log pos ;;
                         tok <~ index_int vocab c ;;
                         Ok (Some tok)
                    else Ok None) ;;
   valid_indices <~ match min_value with
                    | Some m =>
                        max_vals <~ maximum u_vals s_vals ;;
                        threshold_indices max_vals m
                    | None => Ok (seq 0 (length vocab))
                    end ;;
   map_result (build_row vocab u_vals s_vals chosen_token pos) valid_indices)%res.

(** [LogitTracker._to_dataframe]; [pandas] tells whether the import of
    pandas succeeds.  The table is the list of its records. *)
Definition _to_dataframe (pandas : bool) (values : views)
    (min_value : option score) : M LogitTracker (list row) :=
  (if pandas then
     vocab <- get_vocab_mapping ;;
     t <- get ;;
     for_each (seq 0 (length (unstructured values)))
              (fun pos => lift (rows_at values min_value vocab
                                        (chosen_tokens t) pos))
   else raise ImportError)%py.

(** [LogitTracker.get_probabilities_dataframe] *)
Definition get_probabilities_dataframe (pandas : bool)
    (min_value : option score) : M LogitTracker (list row) :=
  (values <- get_probabilities ;; _to_dataframe pandas values min_value)%py.

(** [LogitTracker.get_logits_dataframe] *)
Definition get_logits_dataframe (pandas : bool)
    (min_value : option score) : M LogitTracker (list row) :=
  (values <- get_logits ;; _to_dataframe pandas values min_value)%py.

(** ** Trackers as a generation loop leaves them *)

(** A tracker that recorded at least one step over a vocabulary of [V]
    tokens: the two stores hold equally many vectors, all of width [V]; a
    tokenizer is attached, and the vocabulary table, when built, has [V]
    entries, when not, can be built; the chosen tokens are vocabulary
    indices; and a delegate that has a [tokenizer] attribute holds a
    tokenizer in it. *)
Definition consistent (V : nat) (t : LogitTracker) : Prop :=
  unstructured_logits t <> [] /\
  length (unstructured_logits t) = length (structured_logits t) /\
  Forall (fun v => length v = V) (unstructured_logits t) /\
  Forall (fun v => length v = V) (structured_logits t) /\
  (exists tk, tokenizer t = Some tk /\
     match vocab_tokens t with
     | Some vocab => length vocab = V
     | None => forall i, (i < V)%nat -> decode tk [Z.of_nat i] <> []
     end) /\
  Forall (fun c => 0 <= c < Z.of_nat V) (chosen_tokens t) /\
  (forall d, processor t = Some d -> delegate_tokenizer d <> Some None).

End Tracker.

Arguments LogitTracker N : clear implicits.
Arguments Processor N : clear implicits.

(** ** A concrete numeric library *)

(** Scores taken in [Z], to run the tracker on concrete inputs.  [argsort] is
    the stable insertion sort numpy's generic sort uses on short arrays;
    softmax is replaced by the identity, which keeps the shape and the order
    of the scores as softmax does. *)
Fixpoint insert_pair {A} (le : A -> A -> bool) (x : nat * A) (l : list (nat * A))
  : list (nat * A) :=
  match l with
  | [] => [x]
  | y :: l' => if le (snd x) (snd y) then x :: l else y :: insert_pair le x l'
  end.

Fixpoint sort_pairs {A} (le : A -> A -> bool) (l : list (nat * A))
  : list (nat * A) :=
  match l with
  | [] => []
  | x :: l' => insert_pair le x (sort_pairs le l')
  end.

Definition stable_argsort {A} (le : A -> A -> bool) (v : list A) : list nat :=
  map fst (sort_pairs le (combine (seq 0 (length v)) v)).

#[export] Instance ZNum : NumLib := {|
  score := Z;
  score_le := Z.leb;
  softmax := fun v => v;
  argsort := stable_argsort Z.leb
|}.

(** A tokenizer over three named tokens, and one whose token 0 decodes to the
    empty string, as a special token does when decoding skips special
    tokens. *)
Definition abc_name (i : Z) : string :=
  if i =? 0 then "a" else if i =? 1 then "b" else if i =? 2 then "c" else "?".

Definition abc_tokenizer : Tokenizer := {| decode := map abc_name |}.

Definition special_name (i : Z) : string := if i =? 0 then "" else "x".

Definition special_tokenizer : Tokenizer := {| decode := map special_name |}.

(** A delegate that masks nothing and one that always raises. *)
Definition passing_delegate : Processor ZNum :=
  {| delegate_process_logits := fun _ lg => Ok lg;
     delegate_tokenizer := Some (Some abc_tokenizer) |}.

Definition failing_delegate : Processor ZNum :=
  {| delegate_process_logits := fun _ _ => Raise (DelegateRaised "boom");
     delegate_tokenizer := None |}.

(** The three calls of the test of chosen-token tracking. *)
Definition three_calls : list (list (list Z) * @tensor ZNum) :=
  [ ([[0]], [[1; 1; 1]]);
    ([[0; 1]], [[1; 1; 1]]);
    ([[0; 1; 2]], [[1; 1; 1]]) ].

(** The tracker after those three calls, without delegate, with a tokenizer. *)
Definition after_three_calls : LogitTracker ZNum :=
  snd (process_all three_calls (set_tokenizer (Some abc_tokenizer) (init None))).

(** A tracker that recorded one vector of twelve scores. *)
Definition twelve_wide : LogitTracker ZNum :=
  snd (process_logits [[0]] [[1; 2; 3; 4; 5; 6; 7; 8; 9; 10; 11; 12]]
         (set_tokenizer (Some abc_tokenizer) (init None))).

(** A tracker that recorded the single score vector of the top-token test. *)
Definition one_step (tk : Tokenizer) : LogitTracker ZNum :=
  snd (process_logits [[0]] [[2; -1; 1; 0; 3]]
         (set_tokenizer (Some tk) (init None))).

(** ** Alignment of the log with the stores *)

(** The tokenizer [sequence_up_to] decodes with: the delegate's when the
    delegate has the attribute, the tracker's own otherwise. *)
Definition decoding_tokenizer {N : NumLib} (t : LogitTracker N)
  : option Tokenizer :=
  match processor t with
  | Some d => match delegate_tokenizer d with
              | Some dtk => dtk
              | None => tokenizer t
              end
  | None => tokenizer t
  end.


(** ** Attaching a tracker to a generator *)

(** A generator as [track_logits] sees it: [logits_processor] is [None] when
    the object has no such attribute and [Some None] when the attribute
    holds [None].  A delegate is a function of its arguments, so a generator
    whose processor is itself a tracker is not among these. *)
Record SequenceGenerator {N : NumLib} : Type := {
  logits_processor : option (option (Processor N))
}.

(** What [track_logits] does: it raises its ValueError ("Logit tracking is not
    supported for this generator"), or it leaves the generator with a
    tracker as its [logits_processor]. *)
Inductive tracked {N : NumLib} : Type :=
| Unsupported
| Tracking (tracker : LogitTracker N).

(** [track_logits] *)
Definition track_logits {N : NumLib} (generator : SequenceGenerator) : tracked :=
  match logits_processor generator with
  | None => Unsupported
  | Some p =>
      let tracking := init p in
      let tracking :=
        match p with
        | Some d => match delegate_tokenizer d with
                    | Some tk => set_tokenizer tk tracking
                    | None => tracking
                    end
        | None => tracking
        end in
      Tracking tracking
  end.

(** A tracker over a delegate whose [tokenizer] attribute holds [None], with
    a tokenizer of its own set afterwards, after two calls. *)
Definition tokenless_delegate : Processor ZNum :=
  {| delegate_process_logits := fun _ lg => Ok lg;
     delegate_tokenizer := Some None |}.

Definition split_tokenizers : LogitTracker ZNum :=
  snd (process_all (firstn 2 three_calls)
         (set_tokenizer (Some abc_tokenizer) (init (Some tokenless_delegate)))).

(** A delegate that passes a history of one token and raises on any other,
    and the tracker over it after a first call. *)
Definition flaky_delegate : Processor ZNum :=
  {| delegate_process_logits :=
       fun ids lg => match ids with
                     | [[_]] => Ok lg
                     | _ => Raise (DelegateRaised "boom")
                     end;
     delegate_tokenizer := None |}.

Definition flaky_one_step : LogitTracker ZNum :=
  snd (process_logits [[0]] [[1; 2; 3]]
         (set_tokenizer (Some abc_tokenizer) (init (Some flaky_delegate)))).

(** * Properties *)

(** ** Recording: [process_logits] and [clear] *)

Section Recording.
Context {N : NumLib}.

Ltac run_monad :=
  unfold bind, lift, modify, get, ret, raise in *; simpl in *.

(** What a call that returns normally has done to the tracker. *)
Lemma process_logits_returns ids lg (t t' : LogitTracker N) out :
  process_logits ids lg t = (Ok out, t') ->
  exists row prow,
    lg = [row] /\
    unstructured_logits t' = unstructured_logits t ++ [row] /\
    structured_logits t' = structured_logits t ++ [prow] /\
    _started t' = true /\
    processor t' = processor t /\
    chosen_tokens t' =
      (if _started t
       then if (1 <? length (hd [] ids))%nat
            then chosen_tokens t ++ [last (hd [] ids) 0]
            else chosen_tokens t
       else chosen_tokens t).
Proof.
  unfold process_logits.
  destruct (1 <? length lg)%nat eqn:Hlg; [discriminate |].
  destruct (1 <? length ids)%nat eqn:Hids; [discriminate |].
  destruct lg as [| row lg']; [discriminate |].
  destruct lg' as [| ? ?]; [| simpl in Hlg; discriminate].
  run_monad.
  destruct (_started t) eqn:Hst.
  - destruct ids as [| h ids']; [discriminate |]. simpl.
    destruct (1 <? length h)%nat eqn:Hh; simpl;
      (destruct (processor t) as [d |] eqn:Hp; simpl;
       [ destruct (delegate_process_logits d (h :: ids') [row]) as [pr | e];
         [ destruct pr as [| prow pr']; simpl; [discriminate |] | discriminate ]
       | ]);
      intros H; inversion H; subst; clear H; simpl;
      eexists; eexists; repeat split; try reflexivity; auto.
  - simpl.
    destruct (processor t) as [d |] eqn:Hp; simpl;
      [ destruct (delegate_process_logits d ids [row]) as [pr | e];
        [ destruct pr as [| prow pr']; simpl; [discriminate |] | discriminate ]
      | ];
      intros H; inversion H; subst; clear H; simpl;
      eexists; eexists; repeat split; try reflexivity; auto.
Qed.

(** A call with one token history and one row of scores returns when there
    is no delegate, or when the delegate returns at least one row. *)
Lemma process_logits_single_returns (t : LogitTracker N) h row :
  match processor t with
  | None => True
  | Some d => exists prow rest,
                delegate_process_logits d [h] [row] = Ok (prow :: rest)
  end ->
  exists out t', process_logits [h] [row] t = (Ok out, t').
Proof.
  intros Hd. unfold process_logits. simpl. run_monad.
  destruct (_started t); simpl;
    [destruct (1 <? length h)%nat; simpl |];
    (destruct (processor t) as [d |]; simpl;
     [destruct Hd as (prow & rest & ->); simpl |]; eauto).
Qed.

(** A run of [process_all] splits at its first call. *)
Lemma process_all_cons ids lg rest (t t' : LogitTracker N) outs :
  process_all ((ids, lg) :: rest) t = (Ok outs, t') ->
  exists out outs' t1,
    process_logits ids lg t = (Ok out, t1) /\
    process_all rest t1 = (Ok outs', t') /\ outs = out :: outs'.
Proof.
  simpl. unfold bind at 1.
  destruct (process_logits ids lg t) as [[out | e] t1]; [| discriminate].
  unfold bind at 1.
  destruct (process_all rest t1) as [[outs' | e] t2] eqn:Hrest; [| discriminate].
  unfold ret. intros H; inversion H; subst.
  exists out, outs', t1. auto.
Qed.

Lemma process_all_lengths calls : forall (t t' : LogitTracker N) outs,
  process_all calls t = (Ok outs, t') ->
  length (unstructured_logits t') = (length (unstructured_logits t) + length calls)%nat /\
  length (structured_logits t') = (length (structured_logits t) + length calls)%nat.
Proof.
  induction calls as [| [ids lg] rest IH]; intros t t' outs H.
  - simpl in H. unfold ret in H. inversion H; subst. simpl. lia.
  - apply process_all_cons in H as (out & outs' & t1 & H1 & H2 & _).
    apply process_logits_returns in H1 as (row & prow & _ & Hu & Hs & _).
    apply IH in H2 as [H2u H2s].
    rewrite H2u, H2s, Hu, Hs, !length_app. simpl. lia.
Qed.

(** The chosen-token log along a run in which every call brings a token
    history of more than one token. *)
Lemma process_all_chosen calls : forall (t t' : LogitTracker N) outs,
  _started t = true ->
  Forall (fun c => (1 < length (hd [] (fst c)))%nat) calls ->
  process_all calls t = (Ok outs, t') ->
  _started t' = true /\
  chosen_tokens t' =
    chosen_tokens t ++ map (fun c => last (hd [] (fst c)) 0) calls.
Proof.
  induction calls as [| [ids lg] rest IH]; intros t t' outs Hst Hall H.
  - simpl in H. unfold ret in H. inversion H; subst.
    simpl. rewrite app_nil_r. auto.
  - apply process_all_cons in H as (out & outs' & t1 & H1 & H2 & _).
    apply process_logits_returns in H1
      as (row & prow & _ & _ & _ & Hst1 & _ & Hch).
    inversion Hall as [| c cs Hc Hrest]; subst. simpl in Hc.
    rewrite Hst in Hch.
    apply Nat.ltb_lt in Hc. rewrite Hc in Hch.
    destruct (IH t1 t' outs' Hst1 Hrest H2) as [Hs' Hc'].
    split; [exact Hs' |].
    rewrite Hc', Hch, <- app_assoc. reflexivity.
Qed.

(** C1: processing calls that return grow the unstructured and the structured
    store together.  After any run of such calls on a new tracker both stores
    hold as many entries as there were calls, hence equally many, and one
    more call that returns adds exactly one entry to each. *)
Theorem C1_stores_grow_together
    (p : option (Processor N)) calls ids lg outs out (t1 t2 : LogitTracker N) :
  process_all calls (init p) = (Ok outs, t1) ->
  process_logits ids lg t1 = (Ok out, t2) ->
  length (unstructured_logits t1) = length calls /\
  length (structured_logits t1) = length calls /\
  length (unstructured_logits t1) = length (structured_logits t1) /\
  length (unstructured_logits t2) = S (length (unstructured_logits t1)) /\
  length (structured_logits t2) = S (length (structured_logits t1)) /\
  length (unstructured_logits t2) = length (structured_logits t2).
Proof.
  intros Hrun Hcall.
  apply process_all_lengths in Hrun as [Hu Hs]. simpl in Hu, Hs.
  apply process_logits_returns in Hcall as (row & prow & _ & Hu2 & Hs2 & _).
  rewrite Hu2, Hs2, !length_app, Hu, Hs. simpl. lia.
Qed.

(** C2: the first call on a new tracker sets the started flag and logs no
    token; each later call whose token history is longer than one token logs
    the last token of that history.  So after n calls the log holds the n-1
    last tokens of the histories of calls 2 to n. *)
Theorem C2_chosen_token_log
    (p : option (Processor N)) first rest outs (t' : LogitTracker N) :
  Forall (fun c => (1 < length (hd [] (fst c)))%nat) rest ->
  process_all (first :: rest) (init p) = (Ok outs, t') ->
  _started t' = true /\
  chosen_tokens t' = map (fun c => last (hd [] (fst c)) 0) rest /\
  length (chosen_tokens t') = (length (first :: rest) - 1)%nat.
Proof.
  intros Hall Hrun. destruct first as [ids lg].
  apply process_all_cons in Hrun as (out & outs' & t1 & H1 & H2 & _).
  apply process_logits_returns in H1
    as (row & prow & _ & _ & _ & Hst1 & _ & Hch).
  simpl in Hch.
  destruct (process_all_chosen rest t1 t' outs' Hst1 Hall H2) as [Hs Hc].
  rewrite Hch in Hc. simpl in Hc.
  split; [exact Hs |]. split; [exact Hc |].
  rewrite Hc, length_map. simpl. lia.
Qed.

(** C3 as amended: a score batch of more than one row, or a token-history
    batch of more than one sequence, makes [process_logits] raise the
    ValueError of the batch-size check, naming the offending dimension, and
    leaves the tracker as it was. *)
Theorem C3_more_than_one_rejected ids lg (t : LogitTracker N) :
  (1 < length lg \/ 1 < length ids)%nat ->
  process_logits ids lg t =
    (Raise (ValueError (if (1 <? length lg)%nat
                        then BatchLogits (length lg)
                        else BatchSequences (length ids))), t).
Proof.
  intros H. unfold process_logits.
  destruct (1 <? length lg)%nat eqn:Hlg; [reflexivity |].
  apply Nat.ltb_ge in Hlg.
  destruct H as [H | H]; [lia |].
  apply Nat.ltb_lt in H. rewrite H. reflexivity.
Qed.

(** C9: [clear] empties the two stores and the chosen-token log and leaves
    the started flag, the cached vocabulary table, the delegate and the
    tokenizer as they were. *)
Theorem C9_clear_frame (t : LogitTracker N) :
  exists t',
    clear t = (Ok tt, t') /\
    unstructured_logits t' = [] /\
    structured_logits t' = [] /\
    chosen_tokens t' = [] /\
    _started t' = _started t /\
    vocab_tokens t' = vocab_tokens t /\
    processor t' = processor t /\
    tokenizer t' = tokenizer t.
Proof.
  eexists. unfold clear. run_monad. repeat split; reflexivity.
Qed.

(** C10: when the delegate raises, [process_logits] raises the same exception
    after it has appended the raw scores to the unstructured store and, on a
    started tracker given a history of more than one token, the last token
    to the log; the structured store is untouched.  Stores of equal length
    before the call differ by one after it. *)
Theorem C10_delegate_failure_not_atomic
    (t : LogitTracker N) d h row e :
  processor t = Some d ->
  delegate_process_logits d [h] [row] = Raise e ->
  exists t',
    process_logits [h] [row] t = (Raise e, t') /\
    unstructured_logits t' = unstructured_logits t ++ [row] /\
    structured_logits t' = structured_logits t /\
    chosen_tokens t' =
      (if _started t && (1 <? length h)%nat
       then chosen_tokens t ++ [last h 0]
       else chosen_tokens t) /\
    (length (unstructured_logits t) = length (structured_logits t) ->
     length (unstructured_logits t') = S (length (structured_logits t'))).
Proof.
  intros Hp Hd. unfold process_logits. simpl. run_monad.
  destruct (_started t) eqn:Hst; simpl.
  - destruct (1 <? length h)%nat eqn:Hh; simpl;
      rewrite Hp; simpl; rewrite Hd; simpl;
      eexists; repeat split; simpl; try reflexivity;
      intros Hlen; rewrite length_app; simpl; lia.
  - rewrite Hp; simpl; rewrite Hd; simpl.
    eexists; repeat split; simpl; try reflexivity.
    intros Hlen; rewrite length_app; simpl; lia.
Qed.

End Recording.

(** ** Auxiliary facts on lists, indexing and sorted sequences *)

Section ListFacts.
Context {A B : Type}.

Lemma map_result_Forall2 (f : A -> result B) xs ys :
  map_result f xs = Ok ys <-> Forall2 (fun x y => f x = Ok y) xs ys.
Proof.
  revert ys. induction xs as [| x xs IH]; intros ys; simpl.
  - split; intros H.
    + inversion H. constructor.
    + inversion H. reflexivity.
  - split; intros H.
    + destruct (f x) as [y |] eqn:Hx; [| discriminate].
      destruct (map_result f xs) as [ys' |]; [| discriminate].
      inversion H; subst. constructor; [exact Hx | now apply IH].
    + inversion H as [| x0 y l l' Hx Hrest]; subst.
      rewrite Hx. apply IH in Hrest. rewrite Hrest. reflexivity.
Qed.

Lemma map_result_length (f : A -> result B) xs ys :
  map_result f xs = Ok ys -> length ys = length xs.
Proof.
  intros H. apply map_result_Forall2, Forall2_length in H. auto.
Qed.

Lemma Forall2_skipn (R : A -> B -> Prop) n xs ys :
  Forall2 R xs ys -> Forall2 R (skipn n xs) (skipn n ys).
Proof.
  revert xs ys. induction n as [| n IH]; intros xs ys H; simpl; [exact H |].
  destruct H; [constructor | now apply IH].
Qed.


Lemma Forall2_functional (R : A -> B -> Prop) xs ys ys' :
  (forall x y y', R x y -> R x y' -> y = y') ->
  Forall2 R xs ys -> Forall2 R xs ys' -> ys = ys'.
Proof.
  intros Hf H. revert ys'. induction H; intros ys' H'; inversion H'; subst.
  - reflexivity.
  - f_equal; [eapply Hf; eassumption | now apply IHForall2].
Qed.

Lemma Forall2_In_l (R : A -> B -> Prop) xs ys x :
  Forall2 R xs ys -> In x xs -> exists y, In y ys /\ R x y.
Proof.
  induction 1 as [| x0 y0 xs ys H0 HF IH]; intros Hin; [contradiction |].
  destruct Hin as [-> | Hin].
  - exists y0. split; [now left | assumption].
  - destruct (IH Hin) as [y [Hy HR]]. exists y. split; [now right | assumption].
Qed.

Lemma Forall2_In_r (R : A -> B -> Prop) xs ys y :
  Forall2 R xs ys -> In y ys -> exists x, In x xs /\ R x y.
Proof.
  induction 1 as [| x0 y0 xs ys H0 HF IH]; intros Hin; [contradiction |].
  destruct Hin as [-> | Hin].
  - exists x0. split; [now left | assumption].
  - destruct (IH Hin) as [x [Hx HR]]. exists x. split; [now right | assumption].
Qed.

End ListFacts.

Lemma index_nat_Some {A} (l : list A) i x :
  index_nat l i = Ok x <-> nth_error l i = Some x.
Proof.
  unfold index_nat. destruct (nth_error l i); split; intros H;
    inversion H; reflexivity.
Qed.

Lemma gather_Forall2 {A} (v : list A) idx vs :
  gather v idx = Ok vs <-> Forall2 (fun i x => nth_error v i = Some x) idx vs.
Proof.
  unfold gather. rewrite map_result_Forall2.
  split; intros H; eapply Forall2_impl; try exact H;
    intros i x; apply index_nat_Some.
Qed.

(** Reading a list at indices that are all in range succeeds. *)
Lemma gather_total {A} (v : list A) idx :
  Forall (fun i => (i < length v)%nat) idx -> exists vs, gather v idx = Ok vs.
Proof.
  induction idx as [| i idx IH]; intros H.
  - exists []. reflexivity.
  - inversion H as [| ? ? Hi Hrest]; subst.
    destruct (IH Hrest) as [vs Hvs].
    destruct (nth_error v i) as [x |] eqn:Hx.
    + exists (x :: vs). unfold gather in *. simpl.
      unfold index_nat at 1. rewrite Hx, Hvs. reflexivity.
    + apply nth_error_None in Hx. lia.
Qed.

Section SortedFacts.
Context {A : Type}.

Lemma StronglySorted_app_inv (R : A -> A -> Prop) (l1 l2 : list A) :
  StronglySorted R (l1 ++ l2) ->
  StronglySorted R l1 /\ StronglySorted R l2 /\
  (forall x y, In x l1 -> In y l2 -> R x y).
Proof.
  induction l1 as [| a l1 IH]; simpl; intros H.
  - repeat split; [constructor | exact H | intros ? ? []].
  - apply StronglySorted_inv in H as [Hs Hall].
    destruct (IH Hs) as (H1 & H2 & H12).
    apply Forall_app in Hall as [Ha1 Ha2].
    repeat split.
    + constructor; assumption.
    + assumption.
    + intros x y [<- | Hx] Hy.
      * rewrite Forall_forall in Ha2. now apply Ha2.
      * now apply H12.
Qed.




Lemma StronglySorted_map (R : A -> A -> Prop) {B : Type} (f : B -> A) (l : list B) :
  StronglySorted R (map f l) <-> StronglySorted (fun x y => R (f x) (f y)) l.
Proof.
  induction l as [| b l IH]; simpl.
  - split; constructor.
  - split; intros H; apply StronglySorted_inv in H as [Hs Hall];
      constructor; try (now apply IH);
      rewrite Forall_forall in *; intros x Hx.
    + apply Hall, in_map, Hx.
    + apply in_map_iff in Hx as (z & <- & Hz). now apply Hall.
Qed.

End SortedFacts.

Lemma skipn_incl {A} n (l : list A) x : In x (skipn n l) -> In x l.
Proof.
  intros H. rewrite <- (firstn_skipn n l). apply in_or_app. now right.
Qed.



Lemma where_from_spec bs : forall i j,
  In j (where_from i bs) <->
  (i <= j)%nat /\ nth_error bs (j - i) = Some true.
Proof.
  induction bs as [| b bs IH]; intros i j; simpl.
  - split; [intros [] | intros [_ H]].
    destruct (j - i)%nat; discriminate.
  - assert (Hrec : In j (where_from (S i) bs) <->
                   (i < j)%nat /\ nth_error bs (j - S i) = Some true).
    { rewrite IH. split; intros [H1 H2]; (split; [lia | exact H2]). }
    destruct b; simpl; rewrite Hrec; split.
    + intros [<- | [H1 H2]].
      * split; [lia |]. rewrite Nat.sub_diag. reflexivity.
      * split; [lia |]. replace (j - i)%nat with (S (j - S i)) by lia. exact H2.
    + intros [H1 H2]. destruct (Nat.eq_dec i j) as [-> | Hne]; [now left | right].
      split; [lia |]. replace (j - i)%nat with (S (j - S i)) in H2 by lia. exact H2.
    + intros [H1 H2].
      split; [lia |]. replace (j - i)%nat with (S (j - S i)) by lia. exact H2.
    + intros [H1 H2]. destruct (Nat.eq_dec i j) as [-> | Hne].
      * rewrite Nat.sub_diag in H2. discriminate.
      * split; [lia |]. replace (j - i)%nat with (S (j - S i)) in H2 by lia. exact H2.
Qed.

Lemma where_from_NoDup bs : forall i, NoDup (where_from i bs).
Proof.
  induction bs as [| b bs IH]; intros i; simpl; [constructor |].
  destruct b; [| apply IH].
  constructor; [| apply IH].
  rewrite where_from_spec. lia.
Qed.

Lemma where_from_length bs : forall i,
  length (where_from i bs) = length (filter (fun b => b) bs).
Proof.
  induction bs as [| b bs IH]; intros i; simpl; [reflexivity |].
  destruct b; simpl; rewrite IH; reflexivity.
Qed.

(** ** The monad: computations that only read *)

Section Preservation.
Context {S : Type}.

Lemma preserves_ret {A} (a : A) : preserves (@ret S A a).
Proof. intros s. reflexivity. Qed.

Lemma preserves_raise {A} e : preserves (@raise S A e).
Proof. intros s. reflexivity. Qed.

Lemma preserves_lift {A} (r : result A) : preserves (@lift S A r).
Proof. intros s. reflexivity. Qed.

Lemma preserves_get : preserves (@get S).
Proof. intros s. reflexivity. Qed.

Lemma preserves_bind {A B} (m : M S A) (f : A -> M S B) :
  preserves m -> (forall a, preserves (f a)) -> preserves (bind m f).
Proof.
  intros Hm Hf s. unfold bind. specialize (Hm s).
  destruct (m s) as [[a | e] s']; simpl in *; subst; [apply Hf | reflexivity].
Qed.


Lemma preserves_for_each {A B} (xs : list A) (body : A -> M S (list B)) :
  (forall x, preserves (body x)) -> preserves (for_each xs body).
Proof.
  intros Hb. induction xs as [| x xs IH]; simpl.
  - apply preserves_ret.
  - apply preserves_bind; [apply Hb | intros ys].
    apply preserves_bind; [exact IH | intros zs; apply preserves_ret].
Qed.

(** What a loop whose body only reads returns: the results of the bodies,
    each run on the same state, one after the other. *)
Lemma for_each_returns {A B} (xs : list A) (body : A -> M S (list B)) s ys s' :
  (forall x, preserves (body x)) ->
  for_each xs body s = (Ok ys, s') ->
  s' = s /\
  exists yss, Forall2 (fun x y => body x s = (Ok y, s)) xs yss /\ ys = concat yss.
Proof.
  intros Hb. revert ys.
  induction xs as [| x xs IH]; simpl; intros ys H.
  - unfold ret in H. inversion H; subst. split; [reflexivity |].
    exists []. split; [constructor | reflexivity].
  - unfold bind at 1 in H. pose proof (Hb x s) as Hx.
    destruct (body x s) as [[y | e] s1] eqn:Hbx; [| discriminate].
    simpl in Hx. subst s1.
    unfold bind at 1 in H.
    destruct (for_each xs body s) as [[zs | e] s2] eqn:Hrest; [| discriminate].
    unfold ret in H. inversion H; subst.
    destruct (IH zs eq_refl) as [-> (yss & HF & ->)].
    split; [reflexivity |].
    exists (y :: yss). split; [constructor; assumption | reflexivity].
Qed.


End Preservation.

(** ** Queries: vocabulary table and sequence reconstruction *)

Section Queries.
Context {N : NumLib}.

Lemma sequence_up_to_preserves pos : preserves (sequence_up_to (N:=N) pos).
Proof.
  intros t. unfold sequence_up_to, bind, get, ret, raise.
  destruct (chosen_tokens t); [reflexivity |].
  destruct (processor t) as [d |];
    [destruct (delegate_tokenizer d) as [[k |] |] |];
    try destruct (tokenizer t); reflexivity.
Qed.


Lemma get_logits_preserves : preserves (get_logits (N:=N)).
Proof.
  intros t. unfold get_logits, bind, get, ret, lift.
  destruct (column_stack (unstructured_logits t)); [| reflexivity].
  destruct (column_stack (structured_logits t)); reflexivity.
Qed.

(** [get_vocab_mapping] writes the cache and nothing else. *)
Lemma get_vocab_mapping_frame (t t' : LogitTracker N) r :
  get_vocab_mapping t = (r, t') ->
  unstructured_logits t' = unstructured_logits t /\
  structured_logits t' = structured_logits t /\
  chosen_tokens t' = chosen_tokens t /\
  processor t' = processor t /\
  tokenizer t' = tokenizer t /\
  _started t' = _started t /\
  (forall vocab, r = Ok vocab -> vocab_tokens t' = Some vocab).
Proof.
  unfold get_vocab_mapping, bind, get, ret, raise, lift, modify.
  destruct (tokenizer t) as [tk |] eqn:Htk.
  - destruct (vocab_tokens t) as [vocab |] eqn:Hv.
    + intros H; inversion H; subst. repeat split; auto.
      intros v Hv'. inversion Hv'; subst. assumption.
    + destruct (index0 (unstructured_logits t)) as [first |].
      * destruct (map_result _ _) as [vocab |]; intros H; inversion H; subst;
          simpl; repeat split; auto; try (intros v Hv'; inversion Hv'; subst; auto).
      * intros H; inversion H; subst. repeat split; auto. discriminate.
  - intros H; inversion H; subst. repeat split; auto. discriminate.
Qed.

(** The table is built by decoding each index on its own. *)
Lemma build_vocab_total (tk : Tokenizer) n :
  (forall i, (i < n)%nat -> decode tk [Z.of_nat i] <> []) ->
  exists vocab,
    map_result (fun i => index0 (decode tk [Z.of_nat i])) (seq 0 n) = Ok vocab /\
    length vocab = n /\
    forall i, (i < n)%nat ->
      nth_error vocab i = hd_error (decode tk [Z.of_nat i]).
Proof.
  intros Hne.
  assert (Hgen : forall m start, (start + m <= n)%nat ->
            exists vocab,
              map_result (fun i => index0 (decode tk [Z.of_nat i])) (seq start m)
                = Ok vocab /\
              length vocab = m /\
              forall j, (j < m)%nat ->
                nth_error vocab j = hd_error (decode tk [Z.of_nat (start + j)])).
  { induction m as [| m IH]; intros start Hle.
    - exists []. repeat split; auto. intros j Hj. lia.
    - destruct (IH (S start)) as (vocab & Hv & Hl & Hnth); [lia |].
      destruct (decode tk [Z.of_nat start]) as [| s0 rest] eqn:Hd.
      { exfalso. apply (Hne start); [lia | exact Hd]. }
      exists (s0 :: vocab). simpl. rewrite Hd. simpl. rewrite Hv.
      repeat split; [simpl; lia |].
      intros [| j] Hj; simpl.
      + rewrite Nat.add_0_r, Hd. reflexivity.
      + rewrite Hnth by lia.
        replace (start + S j)%nat with (S start + j)%nat by lia. reflexivity. }
  destruct (Hgen n 0%nat) as (vocab & Hv & Hl & Hnth); [lia |].
  exists vocab. repeat split; auto.
Qed.

Lemma get_vocab_mapping_cached (t : LogitTracker N) tk vocab :
  tokenizer t = Some tk -> vocab_tokens t = Some vocab ->
  get_vocab_mapping t = (Ok vocab, t).
Proof.
  intros Htk Hv. unfold get_vocab_mapping, bind, get, ret.
  rewrite Htk, Hv. reflexivity.
Qed.

Lemma get_vocab_mapping_builds (t : LogitTracker N) tk first rest :
  tokenizer t = Some tk -> vocab_tokens t = None ->
  unstructured_logits t = first :: rest ->
  (forall i, (i < length first)%nat -> decode tk [Z.of_nat i] <> []) ->
  exists vocab,
    get_vocab_mapping t = (Ok vocab, set_vocab_tokens (Some vocab) t) /\
    length vocab = length first /\
    (forall i, (i < length first)%nat ->
       nth_error vocab i = hd_error (decode tk [Z.of_nat i])).
Proof.
  intros Htk Hv Hu Hdec.
  destruct (build_vocab_total tk (length first) Hdec) as (vocab & Hb & Hl & Hn).
  exists vocab. repeat split; auto.
  unfold get_vocab_mapping, bind, get, ret, lift, modify.
  rewrite Htk, Hv, Hu. simpl. rewrite Hb. reflexivity.
Qed.

(** C6: without a tokenizer [get_vocab_mapping] raises its AttributeError and
    changes nothing.  With one and no table yet, it decodes each index below
    the width of the first unstructured vector, stores the table and returns
    it; from then on, whatever the stores hold, it returns the stored table
    and changes nothing. *)
Theorem C6_vocab_mapping (t : LogitTracker N) :
  (tokenizer t = None ->
   get_vocab_mapping t = (Raise NoTokenizerForMapping, t)) /\
  (forall tk vocab,
     tokenizer t = Some tk -> vocab_tokens t = Some vocab ->
     get_vocab_mapping t = (Ok vocab, t)) /\
  (forall tk first rest,
     tokenizer t = Some tk -> vocab_tokens t = None ->
     unstructured_logits t = first :: rest ->
     (forall i, (i < length first)%nat -> decode tk [Z.of_nat i] <> []) ->
     exists vocab,
       get_vocab_mapping t = (Ok vocab, set_vocab_tokens (Some vocab) t) /\
       length vocab = length first /\
       (forall i, (i < length first)%nat ->
          nth_error vocab i = hd_error (decode tk [Z.of_nat i])) /\
       (forall u s,
          let later := set_structured_logits s
                         (set_unstructured_logits u
                            (set_vocab_tokens (Some vocab) t)) in
          get_vocab_mapping later = (Ok vocab, later))).
Proof.
  repeat split.
  - intros Htk. unfold get_vocab_mapping, bind, get, raise.
    rewrite Htk. reflexivity.
  - intros tk vocab. apply get_vocab_mapping_cached.
  - intros tk first rest Htk Hv Hu Hdec.
    destruct (get_vocab_mapping_builds t tk first rest Htk Hv Hu Hdec)
      as (vocab & Hrun & Hl & Hn).
    exists vocab. repeat split; auto.
    intros u s later. subst later.
    now apply (get_vocab_mapping_cached _ tk).
Qed.

(** [l[:e]] with [e] at or past the end is the whole list. *)
Lemma slice_to_beyond {A} (l : list A) e :
  Z.of_nat (length l) <= e -> slice_to e l = l.
Proof.
  intros H. unfold slice_to.
  destruct (e <? 0) eqn:He; [apply Z.ltb_lt in He; lia |].
  apply firstn_all2. lia.
Qed.

End Queries.

(** ** Queries: top tokens *)

Section TopTokens.
Context {N : NumLib}.

Lemma column_stack_returns {A} (cols m : list (list A)) :
  column_stack cols = Ok m -> m = cols.
Proof.
  unfold column_stack. destruct (stackable cols); intros H; inversion H; auto.
Qed.

Lemma top_tokens_at_preserves k probs logits vocab pos :
  preserves (top_tokens_at (N:=N) k probs logits vocab pos).
Proof.
  unfold top_tokens_at.
  apply preserves_bind; [apply preserves_get | intros t].
  destruct (Z.of_nat (length (unstructured_logits t)) <=? pos);
    [apply preserves_ret |].
  apply preserves_bind; [apply sequence_up_to_preserves | intros text].
  apply preserves_bind; [apply preserves_lift | intros u_probs].
  apply preserves_bind; [apply preserves_lift | intros s_probs].
  apply preserves_bind.
  { destruct logits as [lg |]; [| apply preserves_ret].
    apply preserves_bind; [apply preserves_lift | intros ul].
    apply preserves_bind; [apply preserves_lift | intros sl].
    apply preserves_ret. }
  intros logit_cols.
  apply preserves_bind; [apply preserves_lift | intros max_probs].
  apply preserves_bind.
  { destruct (pos <? Z.of_nat (length (structured_logits t)) - 1);
      [| apply preserves_ret].
    apply preserves_bind; [apply sequence_up_to_preserves | intros nxt].
    apply preserves_ret. }
  intros next_token.
  apply preserves_bind; [apply preserves_lift | intros infos].
  apply preserves_ret.
Qed.

Lemma top_tokens_at_skip k probs logits vocab pos (t : LogitTracker N) :
  Z.of_nat (length (unstructured_logits t)) <= pos ->
  top_tokens_at k probs logits vocab pos t = (Ok [], t).
Proof.
  intros H. unfold top_tokens_at, bind, get, ret. simpl.
  apply Z.leb_le in H. rewrite H. reflexivity.
Qed.

(** What the loop body has computed when it returns for a position it does
    not skip. *)
Lemma top_tokens_at_returns k probs logits vocab pos (t t' : LogitTracker N) rs :
  pos < Z.of_nat (length (unstructured_logits t)) ->
  top_tokens_at k probs logits vocab pos t = (Ok rs, t') ->
  exists text u_probs s_probs logit_cols max_probs next_token infos,
    rs = [ {| position := pos; text_so_far := text; tokens := infos |} ] /\
    index_int (unstructured probs) pos = Ok u_probs /\
    index_int (structured probs) pos = Ok s_probs /\
    maximum u_probs s_probs = Ok max_probs /\
    (Z.of_nat (length (structured_logits t)) - 1 <= pos -> next_token = "") /\
    map_result (build_token_info vocab u_probs s_probs logit_cols next_token)
               (top_indices k max_probs) = Ok infos.
Proof.
  intros Hpos. unfold top_tokens_at. unfold bind at 1. unfold get at 1.
  apply Z.leb_gt in Hpos. rewrite Hpos.
  unfold bind at 1.
  pose proof (sequence_up_to_preserves (Some pos) t) as Hs1.
  destruct (sequence_up_to (Some pos) t) as [[text | e] t1]; [| discriminate].
  simpl in Hs1. subst t1.
  unfold bind at 1, lift at 1.
  destruct (index_int (unstructured probs) pos) as [u_probs | e] eqn:Hu;
    [| discriminate].
  unfold bind at 1, lift at 1.
  destruct (index_int (structured probs) pos) as [s_probs | e] eqn:Hs;
    [| discriminate].
  unfold bind at 1.
  match goal with
  | |- context [match ?m t with _ => _ end] =>
      assert (Hlc : snd (m t) = t);
      [ | destruct (m t) as [[logit_cols | e] t1]; [| discriminate];
          simpl in Hlc; subst t1 ]
  end.
  { destruct logits as [lg |]; [| reflexivity].
    unfold bind, lift, ret.
    destruct (index_int (unstructured lg) pos); [| reflexivity].
    destruct (index_int (structured lg) pos); reflexivity. }
  unfold bind at 1, lift at 1.
  destruct (maximum u_probs s_probs) as [max_probs | e] eqn:Hmax;
    [| discriminate].
  unfold bind at 1.
  match goal with
  | |- context [match ?m t with _ => _ end] =>
      assert (Hnt : snd (m t) = t /\
                    (Z.of_nat (length (structured_logits t)) - 1 <= pos ->
                     fst (m t) = Ok ""));
      [ | destruct (m t) as [[next_token | e] t1]; [| discriminate];
          simpl in Hnt; destruct Hnt as [-> Hnext] ]
  end.
  { destruct (pos <? Z.of_nat (length (structured_logits t)) - 1) eqn:Hlast.
    - split; [| intros Hge; apply Z.ltb_lt in Hlast; lia].
      assert (Hp : preserves
                (bind (sequence_up_to (N:=N) (Some (pos + 1)))
                      (fun nxt => ret (string_from (String.length text) nxt)))).
      { apply preserves_bind; [apply sequence_up_to_preserves |].
        intros; apply preserves_ret. }
      apply Hp.
    - split; [reflexivity | intros _; reflexivity]. }
  unfold bind at 1, lift at 1.
  destruct (map_result _ (top_indices k max_probs)) as [infos | e] eqn:Hinfos;
    [| discriminate].
  unfold ret. intros H; inversion H; subst.
  exists text, u_probs, s_probs, logit_cols, max_probs, next_token, infos.
  repeat split; auto.
  intros Hge. specialize (Hnext Hge). inversion Hnext. reflexivity.
Qed.

(** What [get_top_tokens] has computed when it returns. *)
Lemma get_top_tokens_returns k positions incl (t t' : LogitTracker N) reports :
  get_top_tokens k positions incl t = (Ok reports, t') ->
  exists logits vocab t2,
    stackable (map softmax (unstructured_logits t)) = true /\
    stackable (map softmax (structured_logits t)) = true /\
    get_vocab_mapping t = (Ok vocab, t2) /\
    for_each (resolve_positions positions t)
      (top_tokens_at k
         {| unstructured := map softmax (unstructured_logits t);
            structured := map softmax (structured_logits t) |}
         logits vocab) t2 = (Ok reports, t').
Proof.
  unfold get_top_tokens. unfold bind at 1. unfold get at 1.
  unfold bind at 1.
  unfold get_probabilities at 1, bind at 1, get at 1, bind at 1, lift at 1,
    column_stack at 1.
  destruct (stackable (map softmax (unstructured_logits t))) eqn:Hsu;
    [| discriminate].
  unfold bind at 1, lift at 1, column_stack at 1.
  destruct (stackable (map softmax (structured_logits t))) eqn:Hss;
    [| discriminate].
  unfold ret at 1.
  unfold bind at 1.
  match goal with
  | |- context [match ?m t with _ => _ end] =>
      assert (Hlg : snd (m t) = t);
      [ | destruct (m t) as [[logits | e] t1]; [| discriminate];
          simpl in Hlg; subst t1 ]
  end.
  { destruct incl; [| reflexivity].
    assert (Hp : preserves (bind (get_logits (N:=N)) (fun lg => ret (Some lg)))).
    { apply preserves_bind; [apply get_logits_preserves |].
      intros; apply preserves_ret. }
    apply Hp. }
  unfold bind at 1.
  destruct (get_vocab_mapping t) as [[vocab | e] t2] eqn:Hv; [| discriminate].
  intros H. exists logits, vocab, t2. repeat split; auto.
Qed.

End TopTokens.

Section TopTokenReports.
Context {N : NumLib}.

Lemma index_nat_map {A B} (f : A -> B) (l : list A) i y :
  index_nat (map f l) i = Ok y -> exists x, index_nat l i = Ok x /\ y = f x.
Proof.
  unfold index_nat. rewrite nth_error_map.
  destruct (nth_error l i) as [x |]; simpl; intros H; inversion H; eauto.
Qed.

Lemma index_int_map {A B} (f : A -> B) (l : list A) i y :
  index_int (map f l) i = Ok y -> exists x, index_int l i = Ok x /\ y = f x.
Proof.
  unfold index_int. rewrite length_map.
  destruct (i <? 0); [destruct (i + Z.of_nat (length l) <? 0) |];
    try discriminate; apply index_nat_map.
Qed.

(** Every report of [get_top_tokens] stems from one run of the loop body on
    a requested position below the length of the unstructured store. *)
Lemma get_top_tokens_report k positions incl (t t' : LogitTracker N) reports r :
  get_top_tokens k positions incl t = (Ok reports, t') ->
  In r reports ->
  exists vocab logit_cols u_probs s_probs max_probs next_token,
    In (position r) (resolve_positions positions t) /\
    position r < Z.of_nat (length (unstructured_logits t)) /\
    index_int (map softmax (unstructured_logits t)) (position r) = Ok u_probs /\
    index_int (map softmax (structured_logits t)) (position r) = Ok s_probs /\
    maximum u_probs s_probs = Ok max_probs /\
    (Z.of_nat (length (structured_logits t)) - 1 <= position r ->
     next_token = "") /\
    map_result (build_token_info vocab u_probs s_probs logit_cols next_token)
               (top_indices k max_probs) = Ok (tokens r).
Proof.
  intros Hrun Hin.
  apply get_top_tokens_returns in Hrun as (logits & vocab & t2 & _ & _ & Hv & Hloop).
  apply get_vocab_mapping_frame in Hv as (Hu & Hs & _).
  apply for_each_returns in Hloop as [_ (yss & HF & ->)];
    [| intros; apply top_tokens_at_preserves].
  apply in_concat in Hin as (ys & Hys & Hr).
  destruct (Forall2_In_r _ _ _ _ HF Hys) as (pos & Hpos & Hbody).
  destruct (Z_lt_le_dec pos (Z.of_nat (length (unstructured_logits t2))))
    as [Hlt | Hge].
  - apply top_tokens_at_returns in Hbody
      as (text & u_probs & s_probs & logit_cols & max_probs & next_token & infos
          & -> & Hup & Hsp & Hmax & Hnext & Hinfos); [| exact Hlt].
    destruct Hr as [<- | []]. simpl in *.
    rewrite Hu in Hlt. rewrite Hs in Hnext.
    exists vocab, logit_cols, u_probs, s_probs, max_probs, next_token.
    repeat split; assumption.
  - rewrite (top_tokens_at_skip _ _ _ _ _ _ Hge) in Hbody.
    inversion Hbody; subst. contradiction.
Qed.



End TopTokenReports.

(** ** Queries: ranking *)

Section Ranking.
Context {N : NumLib} {L : NumLaws N}.

Lemma argsort_length (v : list score) : length (argsort v) = length v.
Proof.
  rewrite (Permutation_length (argsort_perm v)). apply length_seq.
Qed.

Lemma argsort_in_range (v : list score) :
  Forall (fun i => (i < length v)%nat) (argsort v).
Proof.
  apply Forall_forall. intros i Hi.
  apply (Permutation_in _ (argsort_perm v)) in Hi.
  apply in_seq in Hi. lia.
Qed.

Lemma argsort_NoDup (v : list score) : NoDup (argsort v).
Proof.
  apply (Permutation_NoDup (Permutation_sym (argsort_perm v))), seq_NoDup.
Qed.

(** The values of a vector read in argsort order exist and ascend. *)
Lemma argsort_values (v : list score) :
  exists vs, gather v (argsort v) = Ok vs /\
             StronglySorted (fun a b => score_le a b = true) vs.
Proof.
  destruct (gather_total v (argsort v) (argsort_in_range v)) as [vs Hvs].
  exists vs. split; [exact Hvs | exact (argsort_sorted v vs Hvs)].
Qed.




Lemma zip_max_nth (a b : list score) : forall i x y,
  nth_error a i = Some x -> nth_error b i = Some y ->
  nth_error (zip_max a b) i = Some (score_max x y).
Proof.
  revert b. induction a as [| x0 a IH]; intros b i x y Ha Hb.
  - destruct i; discriminate.
  - destruct b as [| y0 b]; [destruct i; discriminate |].
    destruct i as [| i]; simpl in *.
    + inversion Ha; inversion Hb; subst. reflexivity.
    + now apply IH.
Qed.

Lemma zip_max_length (a b : list score) :
  length a = length b -> length (zip_max a b) = length a.
Proof.
  revert b. induction a as [| x a IH]; intros [| y b] H; simpl in *;
    try discriminate; auto.
Qed.

(** [np.maximum] holds, at each index both vectors can be read at, the
    larger of the two values; this is so under broadcasting as well. *)
Lemma maximum_nth (a b m : list score) i x y :
  maximum a b = Ok m ->
  nth_error a i = Some x -> nth_error b i = Some y ->
  nth_error m i = Some (score_max x y).
Proof.
  unfold maximum. intros Hm Ha Hb.
  destruct (length a =? length b)%nat eqn:Hlen.
  - inversion Hm; subst. now apply zip_max_nth.
  - destruct a as [| x0 [| x1 a]]; [destruct i; discriminate | |].
    + inversion Hm; subst.
      destruct i as [| i]; [| destruct i; discriminate].
      simpl in Ha. inversion Ha; subst.
      rewrite nth_error_map, Hb. reflexivity.
    + destruct b as [| y0 [| y1 b]]; try discriminate.
      inversion Hm; subst.
      destruct i as [| i]; [| destruct i; discriminate].
      simpl in Hb. inversion Hb; subst.
      simpl in Ha. inversion Ha; subst. reflexivity.
Qed.


(** The value an entry is ranked by. *)
Lemma build_token_info_values vocab u_probs s_probs logit_cols next_token idx info :
  build_token_info vocab u_probs s_probs logit_cols next_token idx = Ok info ->
  nth_error vocab idx = Some (token info) /\
  nth_error u_probs idx = Some (unstructured_prob info) /\
  nth_error s_probs idx = Some (structured_prob info) /\
  is_chosen info = String.eqb (token info) next_token.
Proof.
  unfold build_token_info, rbind.
  destruct (index_nat vocab idx) as [tok |] eqn:Ht; [| discriminate].
  destruct (index_nat u_probs idx) as [up |] eqn:Hu; [| discriminate].
  destruct (index_nat s_probs idx) as [sp |] eqn:Hs; [| discriminate].
  apply index_nat_Some in Ht, Hu, Hs.
  destruct logit_cols as [[ul sl] |].
  - destruct (index_nat ul idx); [| discriminate].
    destruct (index_nat sl idx); [| discriminate].
    intros H; inversion H; subst; simpl. auto.
  - intros H; inversion H; subst; simpl. auto.
Qed.

End Ranking.

(** ** The concrete numeric library keeps the library promises *)

Section StableArgsort.
Context {A : Type} (le : A -> A -> bool).
Hypothesis le_total : forall x y, le x y = true \/ le y x = true.
Hypothesis le_trans : forall x y z, le x y = true -> le y z = true -> le x z = true.

Let le_pair (p q : nat * A) : Prop := le (snd p) (snd q) = true.

Lemma insert_pair_perm x l : Permutation (insert_pair le x l) (x :: l).
Proof.
  induction l as [| y l IH]; simpl; [reflexivity |].
  destruct (le (snd x) (snd y)); [reflexivity |].
  rewrite IH. apply perm_swap.
Qed.

Lemma sort_pairs_perm l : Permutation (sort_pairs le l) l.
Proof.
  induction l as [| x l IH]; simpl; [reflexivity |].
  rewrite insert_pair_perm. now constructor.
Qed.

Lemma insert_pair_sorted x l :
  StronglySorted le_pair l -> StronglySorted le_pair (insert_pair le x l).
Proof.
  induction l as [| y l IH]; simpl; intros Hs.
  - constructor; constructor.
  - apply StronglySorted_inv in Hs as [Hs Hy].
    destruct (le (snd x) (snd y)) eqn:Hxy.
    + constructor; [constructor; assumption |].
      constructor; [exact Hxy |].
      rewrite Forall_forall in *. intros z Hz.
      unfold le_pair in *. eapply le_trans; [exact Hxy | now apply Hy].
    + constructor; [now apply IH |].
      rewrite Forall_forall in *. intros z Hz.
      apply (Permutation_in _ (insert_pair_perm x l)) in Hz.
      destruct Hz as [<- | Hz]; [| now apply Hy].
      unfold le_pair. destruct (le_total (snd x) (snd y)) as [H | H];
        [congruence | exact H].
Qed.

Lemma sort_pairs_sorted l : StronglySorted le_pair (sort_pairs le l).
Proof.
  induction l as [| x l IH]; simpl; [constructor | now apply insert_pair_sorted].
Qed.

Lemma combine_seq_fst (v : list A) : forall s,
  map fst (combine (seq s (length v)) v) = seq s (length v).
Proof.
  induction v as [| x v IH]; intros s; simpl; [reflexivity |].
  now rewrite IH.
Qed.

Lemma combine_seq_In (v : list A) : forall s i x,
  In (i, x) (combine (seq s (length v)) v) ->
  (s <= i)%nat /\ nth_error v (i - s) = Some x.
Proof.
  induction v as [| y v IH]; intros s i x Hin; simpl in Hin; [contradiction |].
  destruct Hin as [Heq | Hin].
  - inversion Heq; subst. rewrite Nat.sub_diag. split; [lia | reflexivity].
  - apply IH in Hin as [Hle Hn]. split; [lia |].
    replace (i - s)%nat with (S (i - S s)) by lia. exact Hn.
Qed.

Lemma stable_argsort_perm (v : list A) :
  Permutation (stable_argsort le v) (seq 0 (length v)).
Proof.
  unfold stable_argsort.
  eapply Permutation_trans; [apply Permutation_map, sort_pairs_perm |].
  rewrite combine_seq_fst. reflexivity.
Qed.

Lemma gather_pairs (v : list A) (ps : list (nat * A)) :
  Forall (fun p => nth_error v (fst p) = Some (snd p)) ps ->
  gather v (map fst ps) = Ok (map snd ps).
Proof.
  intros H. apply gather_Forall2.
  induction H; simpl; constructor; assumption.
Qed.

Lemma stable_argsort_sorted (v vs : list A) :
  gather v (stable_argsort le v) = Ok vs ->
  StronglySorted (fun a b => le a b = true) vs.
Proof.
  unfold stable_argsort. intros Hg.
  set (ps := sort_pairs le (combine (seq 0 (length v)) v)) in *.
  assert (Hps : gather v (map fst ps) = Ok (map snd ps)).
  { apply gather_pairs, Forall_forall. intros [i x] Hin.
    apply (Permutation_in _ (sort_pairs_perm _)) in Hin.
    apply combine_seq_In in Hin as [_ Hn].
    rewrite Nat.sub_0_r in Hn. exact Hn. }
  rewrite Hg in Hps. inversion Hps; subst.
  apply StronglySorted_map. apply sort_pairs_sorted.
Qed.

End StableArgsort.

#[export] Instance ZNum_laws : NumLaws ZNum.
Proof.
  split.
  - intros v. reflexivity.
  - intros v. apply stable_argsort_perm.
  - intros v vs. apply stable_argsort_sorted.
    + intros x y. rewrite !Z.leb_le. lia.
    + intros x y z. rewrite !Z.leb_le. lia.
Qed.

(** ** Queries on a consistent tracker return *)

Section Totality.
Context {N : NumLib} {L : NumLaws N}.

Lemma stackable_uniform {A} (cols : list (list A)) V :
  cols <> [] -> Forall (fun c => length c = V) cols -> stackable cols = true.
Proof.
  destruct cols as [| c cs]; [congruence |]. intros _ H. simpl.
  inversion H as [| ? ? Hc Hcs]; subst.
  apply forallb_forall. intros c' Hc'.
  rewrite Forall_forall in Hcs. apply Nat.eqb_eq. now apply Hcs.
Qed.

Lemma for_each_total {S A B} (xs : list A) (body : A -> M S (list B)) s :
  (forall x, In x xs -> exists ys, body x s = (Ok ys, s)) ->
  exists ys, for_each xs body s = (Ok ys, s).
Proof.
  induction xs as [| x xs IH]; intros H; simpl.
  - exists []. reflexivity.
  - destruct (H x (or_introl eq_refl)) as [ys Hys].
    destruct IH as [zs Hzs]; [intros y Hy; apply H; now right |].
    exists (ys ++ zs). unfold bind. rewrite Hys, Hzs. reflexivity.
Qed.

Lemma map_result_total {A B} (f : A -> result B) xs :
  Forall (fun x => exists y, f x = Ok y) xs -> exists ys, map_result f xs = Ok ys.
Proof.
  induction 1 as [| x xs [y Hy] _ [ys Hys]]; simpl.
  - exists []. reflexivity.
  - exists (y :: ys). rewrite Hy, Hys. reflexivity.
Qed.

Lemma index_nat_total {A} (l : list A) i :
  (i < length l)%nat -> exists x, index_nat l i = Ok x /\ In x l.
Proof.
  intros H. unfold index_nat.
  destruct (nth_error l i) as [x |] eqn:Hx.
  - exists x. split; [reflexivity | eapply nth_error_In; exact Hx].
  - apply nth_error_None in Hx. lia.
Qed.

Lemma index_int_total {A} (l : list A) i :
  - Z.of_nat (length l) <= i < Z.of_nat (length l) ->
  exists x, index_int l i = Ok x /\ In x l.
Proof.
  intros H. unfold index_int.
  destruct (i <? 0) eqn:Hneg.
  - destruct (i + Z.of_nat (length l) <? 0) eqn:Hlow.
    + apply Z.ltb_lt in Hlow. lia.
    + apply Z.ltb_lt in Hneg. apply index_nat_total. lia.
  - apply Z.ltb_ge in Hneg. apply index_nat_total. lia.
Qed.

Lemma sequence_up_to_total (t : LogitTracker N) pos :
  tokenizer t <> None ->
  (forall d, processor t = Some d -> delegate_tokenizer d <> Some None) ->
  exists text, sequence_up_to pos t = (Ok text, t).
Proof.
  intros Htk Hd. unfold sequence_up_to, bind, get, ret, raise.
  destruct (chosen_tokens t); [eauto |].
  destruct (processor t) as [d |] eqn:Hp.
  - specialize (Hd d eq_refl).
    destruct (delegate_tokenizer d) as [[k |] |]; [eauto | congruence |].
    destruct (tokenizer t); [eauto | congruence].
  - destruct (tokenizer t); [eauto | congruence].
Qed.


Lemma get_vocab_mapping_total V (t : LogitTracker N) :
  consistent V t ->
  exists vocab t2, get_vocab_mapping t = (Ok vocab, t2) /\ length vocab = V.
Proof.
  intros (Hne & _ & Hu & _ & (tk & Htk & Hvocab) & _).
  destruct (vocab_tokens t) as [vocab |] eqn:Hv.
  - exists vocab, t. split; [| exact Hvocab].
    exact (get_vocab_mapping_cached t tk vocab Htk Hv).
  - destruct (unstructured_logits t) as [| first rest] eqn:Hul; [congruence |].
    inversion Hu as [| ? ? Hfirst _]; subst.
    destruct (get_vocab_mapping_builds t tk first rest Htk Hv Hul Hvocab)
      as (vocab & Hrun & Hlen & _).
    eauto.
Qed.

End Totality.

Section TopTokensReturn.
Context {N : NumLib} {L : NumLaws N}.

Lemma bind_returns {S A B} (m : M S A) (f : A -> M S B) s a s' :
  m s = (Ok a, s') -> bind m f s = f a s'.
Proof. intros H. unfold bind. rewrite H. reflexivity. Qed.

Lemma lift_returns {S A} (r : result A) (s : S) a :
  r = Ok a -> lift r s = (Ok a, s).
Proof. intros ->. reflexivity. Qed.


Lemma softmax_widths (cols : list (list score)) V :
  Forall (fun c => length c = V) cols ->
  Forall (fun c => length c = V) (map softmax cols).
Proof.
  intros H. apply Forall_map. eapply Forall_impl; [| exact H].
  intros c Hc. simpl. now rewrite softmax_length.
Qed.

Lemma maximum_same_width (a b : list score) :
  length a = length b ->
  exists m, maximum a b = Ok m /\ length m = length a.
Proof.
  intros H. unfold maximum.
  apply Nat.eqb_eq in H. rewrite H. apply Nat.eqb_eq in H.
  exists (zip_max a b). split; [reflexivity | now apply zip_max_length].
Qed.




End TopTokensReturn.

(** ** Queries: positions past the end *)

Section Leniency.
Context {N : NumLib} {L : NumLaws N}.


End Leniency.

(** ** Queries: what a top-token report holds *)

Section TopTokenTheorems.
Context {N : NumLib} {L : NumLaws N}.




(** At the last position [get_top_tokens] compares every token with the
    empty string: an entry is marked chosen there exactly when its token
    string is empty. *)
Lemma is_chosen_at_last_position
    (t t' : LogitTracker N) k positions incl reports r e :
  get_top_tokens k positions incl t = (Ok reports, t') ->
  In r reports ->
  Z.of_nat (length (structured_logits t)) - 1 <= position r ->
  In e (tokens r) ->
  is_chosen e = String.eqb (token e) "".
Proof.
  intros Hrun Hr Hlast He.
  destruct (get_top_tokens_report _ _ _ _ _ _ _ Hrun Hr)
    as (vocab & logit_cols & u_probs & s_probs & max_probs & next_token
        & _ & _ & _ & _ & _ & Hnext & Hinfos).
  rewrite (Hnext Hlast) in Hinfos.
  apply map_result_Forall2 in Hinfos.
  destruct (Forall2_In_r _ _ _ _ Hinfos He) as (idx & _ & Hb).
  apply build_token_info_values in Hb. tauto.
Qed.

End TopTokenTheorems.

(** ** Tabular export: the indices kept under a threshold *)

Section Threshold.
Context {N : NumLib} {L : NumLaws N}.

Lemma np_where_In (bs : list bool) i :
  In i (np_where bs) <-> nth_error bs i = Some true.
Proof.
  unfold np_where. rewrite where_from_spec, Nat.sub_0_r.
  split; [tauto | intros H; split; [lia | exact H]].
Qed.

Lemma np_where_threshold (max_vals : list score) m i :
  In i (np_where (map (score_le m) max_vals)) <->
  exists x, nth_error max_vals i = Some x /\ score_le m x = true.
Proof.
  rewrite np_where_In, nth_error_map.
  destruct (nth_error max_vals i) as [x |]; simpl; split.
  - intros H; inversion H. eauto.
  - intros (y & Hy & Hle). inversion Hy; subst. now rewrite Hle.
  - discriminate.
  - intros (y & Hy & _). discriminate.
Qed.

Lemma np_where_threshold_length (max_vals : list score) m :
  length (np_where (map (score_le m) max_vals)) =
  length (filter (score_le m) max_vals).
Proof.
  unfold np_where. rewrite where_from_length.
  induction max_vals as [| x v IH]; simpl; [reflexivity |].
  destruct (score_le m x); simpl; rewrite IH; reflexivity.
Qed.

Lemma Forall2_firstn {A B} (R : A -> B -> Prop) n xs ys :
  Forall2 R xs ys -> Forall2 R (firstn n xs) (firstn n ys).
Proof.
  revert xs ys. induction n as [| n IH]; intros xs ys H; simpl; [constructor |].
  destruct H; constructor; [assumption | now apply IH].
Qed.

(** Reading a duplicate-free list at distinct places gives distinct
    elements. *)
Lemma gather_NoDup {A} (v : list A) idx vs :
  NoDup v -> NoDup idx -> gather v idx = Ok vs -> NoDup vs.
Proof.
  intros Hv Hidx Hg. apply gather_Forall2 in Hg.
  induction Hg as [| a x idx vs Hax HF IH]; [constructor |].
  inversion Hidx as [| ? ? Hnotin Hidx']; subst.
  constructor; [| now apply IH].
  intros Hin.
  destruct (Forall2_In_r _ _ _ _ HF Hin) as (a' & Ha' & Ha'x).
  assert (a = a'); [| subst; contradiction].
  apply (proj1 (NoDup_nth_error v) Hv).
  - apply nth_error_Some. congruence.
  - congruence.
Qed.

(** The last ten places of an argsort: how many they are, and that the
    values at the places before them are below the values at them. *)
Lemma argsort_last_ten (vals : list score) :
  let order := argsort vals in
  let n := (length vals - 10)%nat in
  slice_from (-10) order = skipn n order /\
  length (skipn n order) = Nat.min 10 (length vals) /\
  NoDup (skipn n order) /\
  (forall a, (a < length vals)%nat -> ~ In a (skipn n order) ->
             In a (firstn n order)) /\
  (forall a b x y, In a (firstn n order) -> In b (skipn n order) ->
                   nth_error vals a = Some x -> nth_error vals b = Some y ->
                   score_le x y = true).
Proof.
  intros order n. subst order n.
  set (order := argsort vals). set (n := (length vals - 10)%nat).
  assert (Hlen : length order = length vals) by apply argsort_length.
  assert (Hsplit : order = firstn n order ++ skipn n order)
    by (symmetry; apply firstn_skipn).
  repeat split.
  - unfold slice_from. simpl. rewrite Hlen. f_equal. subst n. lia.
  - rewrite length_skipn, Hlen. subst n. lia.
  - pose proof (argsort_NoDup vals) as Hnd. fold order in Hnd.
    rewrite Hsplit in Hnd. now apply NoDup_app_remove_l in Hnd.
  - intros a Ha Hnot.
    assert (Hin : In a order).
    { apply (Permutation_in _ (Permutation_sym (argsort_perm vals))).
      apply in_seq. lia. }
    rewrite Hsplit in Hin. apply in_app_or in Hin. tauto.
  - intros a b x y Ha Hb Hx Hy.
    destruct (argsort_values vals) as (svs & Hg & Hsorted). fold order in Hg.
    apply gather_Forall2 in Hg.
    pose proof (Forall2_firstn _ n _ _ Hg) as Hg1.
    pose proof (Forall2_skipn _ n _ _ Hg) as Hg2.
    destruct (Forall2_In_l _ _ _ _ Hg1 Ha) as (x' & Hx' & Hax).
    destruct (Forall2_In_l _ _ _ _ Hg2 Hb) as (y' & Hy' & Hby).
    rewrite Hx in Hax. rewrite Hy in Hby.
    inversion Hax; inversion Hby; subst.
    rewrite <- (firstn_skipn n svs) in Hsorted.
    apply StronglySorted_app_inv in Hsorted as (_ & _ & H12).
    now apply H12.
Qed.

(** What [threshold_indices] keeps: entries that pass the threshold, each
    once, ten of them or all if fewer pass, and none with a smaller value
    than an entry that passes and is left out. *)
Lemma threshold_indices_spec (max_vals : list score) m :
  exists sel,
    threshold_indices max_vals m = Ok sel /\
    NoDup sel /\
    (forall i, In i sel ->
       exists x, nth_error max_vals i = Some x /\ score_le m x = true) /\
    length sel = Nat.min 10 (length (filter (score_le m) max_vals)) /\
    (forall i j x y,
       nth_error max_vals i = Some x -> score_le m x = true -> ~ In i sel ->
       In j sel -> nth_error max_vals j = Some y -> score_le x y = true).
Proof.
  unfold threshold_indices.
  set (valid := np_where (map (score_le m) max_vals)).
  assert (Hvalid : forall i, In i valid <->
            exists x, nth_error max_vals i = Some x /\ score_le m x = true)
    by (intros; apply np_where_threshold).
  assert (Hnd : NoDup valid) by apply where_from_NoDup.
  assert (Hcount : length valid = length (filter (score_le m) max_vals))
    by apply np_where_threshold_length.
  destruct (0 <? length valid)%nat eqn:Hne.
  2:{ apply Nat.ltb_ge in Hne.
      exists valid. repeat split; auto.
      - intros i Hi. now apply Hvalid.
      - rewrite <- Hcount. lia.
      - intros i j x y Hx Hle Hnot. exfalso. apply Hnot, Hvalid. eauto. }
  destruct (gather_total max_vals valid) as [vals Hvals].
  { apply Forall_forall. intros i Hi. apply Hvalid in Hi as (x & Hx & _).
    apply nth_error_Some. congruence. }
  rewrite Hvals. unfold rbind.
  pose proof (map_result_length _ _ _ Hvals) as Hlv.
  apply gather_Forall2 in Hvals.
  destruct (argsort_last_ten vals) as (Hslice & Hlast & Hlnd & Hcover & Hbelow).
  rewrite Hslice.
  set (last := skipn (length vals - 10) (argsort vals)) in *.
  destruct (gather_total valid last) as [sel Hsel].
  { apply Forall_forall. intros a Ha. unfold last in Ha.
    apply skipn_incl in Ha.
    pose proof (argsort_in_range vals) as Hr.
    rewrite Forall_forall in Hr. specialize (Hr a Ha). lia. }
  exists sel. split; [exact Hsel |].
  pose proof (gather_NoDup _ _ _ Hnd Hlnd Hsel) as Hselnd.
  pose proof (map_result_length _ _ _ Hsel) as Hsl.
  apply gather_Forall2 in Hsel.
  repeat split.
  - exact Hselnd.
  - intros i Hi. destruct (Forall2_In_r _ _ _ _ Hsel Hi) as (a & _ & Ha).
    apply Hvalid. eapply nth_error_In. exact Ha.
  - rewrite Hsl, Hlast, Hlv, Hcount. reflexivity.
  - intros i j x y Hx Hle Hnot Hj Hy.
    assert (Hi : In i valid) by (apply Hvalid; eauto).
    apply In_nth_error in Hi as (a & Ha).
    destruct (Forall2_In_r _ _ _ _ Hsel Hj) as (b & Hb & Hbj).
    assert (Halt : (a < length vals)%nat).
    { rewrite Hlv. apply nth_error_Some. congruence. }
    assert (Hanot : ~ In a last).
    { intros Hin. destruct (Forall2_In_l _ _ _ _ Hsel Hin) as (i' & Hi' & Hai').
      rewrite Ha in Hai'. inversion Hai'; subst. contradiction. }
    specialize (Hcover a Halt Hanot).
    assert (Hva : nth_error vals a = Some x).
    { clear - Hvals Ha Hx. revert a Ha.
      induction Hvals as [| i0 x0 idxs xs H0 _ IH]; intros [| a] Ha;
        simpl in *; try discriminate.
      - inversion Ha; subst. congruence.
      - now apply IH. }
    assert (Hvb : nth_error vals b = Some y).
    { clear - Hvals Hbj Hy. revert b Hbj.
      induction Hvals as [| i0 x0 idxs xs H0 _ IH]; intros [| b] Hb;
        simpl in *; try discriminate.
      - inversion Hb; subst. congruence.
      - now apply IH. }
    exact (Hbelow a b x y Hcover Hb Hva Hvb).
Qed.

End Threshold.

(** ** Tabular export: the table *)

Section Table.
Context {N : NumLib} {L : NumLaws N}.

Lemma build_row_values vocab u_vals s_vals chosen_token pos idx r :
  build_row vocab u_vals s_vals chosen_token pos idx = Ok r ->
  row_position r = pos /\
  nth_error vocab idx = Some (row_token r) /\
  nth_error u_vals idx = Some (natural r) /\
  nth_error s_vals idx = Some (constrained r) /\
  chosen r = eq_chosen (row_token r) chosen_token.
Proof.
  unfold build_row, rbind.
  destruct (index_nat vocab idx) as [tok |] eqn:Ht; [| discriminate].
  destruct (index_nat u_vals idx) as [n |] eqn:Hu; [| discriminate].
  destruct (index_nat s_vals idx) as [c |] eqn:Hs; [| discriminate].
  apply index_nat_Some in Ht, Hu, Hs.
  intros H; inversion H; subst; simpl. auto.
Qed.

(** What the loop body of [_to_dataframe] has computed when it returns. *)
Lemma rows_at_returns values min_value vocab chosen_log pos rs :
  rows_at values min_value vocab chosen_log pos = Ok rs ->
  exists u_vals s_vals chosen_token sel,
    nth_error (unstructured values) pos = Some u_vals /\
    nth_error (structured values) pos = Some s_vals /\
    match min_value with
    | Some m => exists max_vals, maximum u_vals s_vals = Ok max_vals /\
                                 threshold_indices max_vals m = Ok sel
    | None => sel = seq 0 (length vocab)
    end /\
    map_result (build_row vocab u_vals s_vals chosen_token pos) sel = Ok rs.
Proof.
  unfold rows_at. unfold rbind at 1.
  destruct (index_nat (unstructured values) pos) as [u_vals |] eqn:Hu;
    [| discriminate].
  unfold rbind at 1.
  destruct (index_nat (structured values) pos) as [s_vals |] eqn:Hs;
    [| discriminate].
  apply index_nat_Some in Hu, Hs.
  unfold rbind at 1.
  match goal with
  | |- context [match ?c with Ok _ => _ | Raise _ => _ end = _] =>
      destruct c as [chosen_token |]; [| discriminate]
  end.
  unfold rbind at 1.
  destruct min_value as [m |].
  - unfold rbind at 1.
    destruct (maximum u_vals s_vals) as [max_vals |] eqn:Hmax; [| discriminate].
    destruct (threshold_indices max_vals m) as [sel |] eqn:Hsel; [| discriminate].
    intros H. exists u_vals, s_vals, chosen_token, sel.
    repeat split; eauto.
  - intros H. exists u_vals, s_vals, chosen_token, (seq 0 (length vocab)).
    repeat split; eauto.
Qed.

(** What [_to_dataframe] has computed when it returns. *)
Lemma to_dataframe_returns pandas values min_value (t t' : LogitTracker N) rows :
  _to_dataframe pandas values min_value t = (Ok rows, t') ->
  pandas = true /\
  exists vocab per_position,
    get_vocab_mapping t = (Ok vocab, t') /\
    Forall2 (fun pos rs =>
               rows_at values min_value vocab (chosen_tokens t') pos = Ok rs)
            (seq 0 (length (unstructured values))) per_position /\
    rows = concat per_position.
Proof.
  unfold _to_dataframe. destruct pandas; [| discriminate].
  unfold bind at 1.
  destruct (get_vocab_mapping t) as [[vocab | e] t2] eqn:Hv; [| discriminate].
  unfold bind at 1, get at 1.
  intros H. split; [reflexivity |].
  apply for_each_returns in H as [-> (yss & HF & ->)];
    [| intros; apply preserves_lift].
  exists vocab, yss. repeat split; auto.
  eapply Forall2_impl; [| exact HF].
  intros pos rs Hb. unfold lift in Hb. inversion Hb. reflexivity.
Qed.

Lemma concat_length_const {A} (yss : list (list A)) c :
  Forall (fun ys => length ys = c) yss ->
  length (concat yss) = (length yss * c)%nat.
Proof.
  induction 1 as [| ys yss Hy _ IH]; simpl; [reflexivity |].
  rewrite length_app, IH, Hy. reflexivity.
Qed.

(** The table of an export that returns: position by position in the order
    of the columns of [values], one row per kept index. *)
Lemma to_dataframe_rows
    (t t' : LogitTracker N) values min_value rows :
  _to_dataframe true values min_value t = (Ok rows, t') ->
  exists vocab per_position,
    vocab_tokens t' = Some vocab /\
    rows = concat per_position /\
    Forall2
      (fun pos rs =>
         exists u_vals s_vals sel,
           nth_error (unstructured values) pos = Some u_vals /\
           nth_error (structured values) pos = Some s_vals /\
           Forall2
             (fun idx r =>
                row_position r = pos /\
                nth_error vocab idx = Some (row_token r) /\
                nth_error u_vals idx = Some (natural r) /\
                nth_error s_vals idx = Some (constrained r))
             sel rs /\
           match min_value with
           | None => sel = seq 0 (length vocab)
           | Some m =>
               exists max_vals,
                 maximum u_vals s_vals = Ok max_vals /\
                 NoDup sel /\
                 (forall i, In i sel ->
                    exists x, nth_error max_vals i = Some x /\
                              score_le m x = true) /\
                 length sel =
                   Nat.min 10 (length (filter (score_le m) max_vals)) /\
                 (forall i j x y,
                    nth_error max_vals i = Some x -> score_le m x = true ->
                    ~ In i sel -> In j sel ->
                    nth_error max_vals j = Some y -> score_le x y = true)
           end)
      (seq 0 (length (unstructured values))) per_position /\
    match min_value with
    | None =>
        length rows = (length (unstructured values) * length vocab)%nat
    | Some m =>
        Forall (fun r => score_le m (score_max (natural r) (constrained r)) = true)
               rows
    end.
Proof.
  intros Hrun.
  apply to_dataframe_returns in Hrun as (_ & vocab & per_position & Hv & HF & ->).
  apply get_vocab_mapping_frame in Hv as (_ & _ & _ & _ & _ & _ & Hvocab).
  specialize (Hvocab vocab eq_refl).
  exists vocab, per_position.
  split; [exact Hvocab |]. split; [reflexivity |].
  assert (Hper : Forall2
            (fun pos rs =>
               exists u_vals s_vals sel,
                 nth_error (unstructured values) pos = Some u_vals /\
                 nth_error (structured values) pos = Some s_vals /\
                 Forall2
                   (fun idx r =>
                      row_position r = pos /\
                      nth_error vocab idx = Some (row_token r) /\
                      nth_error u_vals idx = Some (natural r) /\
                      nth_error s_vals idx = Some (constrained r))
                   sel rs /\
                 match min_value with
                 | None => sel = seq 0 (length vocab)
                 | Some m =>
                     exists max_vals,
                       maximum u_vals s_vals = Ok max_vals /\
                       NoDup sel /\
                       (forall i, In i sel ->
                          exists x, nth_error max_vals i = Some x /\
                                    score_le m x = true) /\
                       length sel =
                         Nat.min 10 (length (filter (score_le m) max_vals)) /\
                       (forall i j x y,
                          nth_error max_vals i = Some x -> score_le m x = true ->
                          ~ In i sel -> In j sel ->
                          nth_error max_vals j = Some y -> score_le x y = true)
                 end)
            (seq 0 (length (unstructured values))) per_position).
  { eapply Forall2_impl; [| exact HF].
    intros pos rs Hrows.
    apply rows_at_returns in Hrows
      as (u_vals & s_vals & chosen_token & sel & Hu & Hs & Hsel & Hrs).
    exists u_vals, s_vals, sel.
    split; [exact Hu |]. split; [exact Hs |]. split.
    - apply map_result_Forall2 in Hrs.
      eapply Forall2_impl; [| exact Hrs].
      intros idx r Hb. apply build_row_values in Hb. tauto.
    - destruct min_value as [m |]; [| exact Hsel].
      destruct Hsel as (max_vals & Hmax & Hth).
      exists max_vals. split; [exact Hmax |].
      destruct (threshold_indices_spec max_vals m)
        as (sel' & Hth' & Hnd & Hpass & Hlen & Htop).
      rewrite Hth in Hth'. inversion Hth'; subst sel'.
      repeat split; assumption. }
  split; [exact Hper |].
  destruct min_value as [m |].
  - apply Forall_forall. intros r Hr.
    apply in_concat in Hr as (rs & Hrs & Hr).
    destruct (Forall2_In_r _ _ _ _ Hper Hrs)
      as (pos & _ & u_vals & s_vals & sel & _ & _ & Hrows & max_vals & Hmax
          & _ & Hpass & _).
    destruct (Forall2_In_r _ _ _ _ Hrows Hr) as (idx & Hidx & _ & _ & Hn & Hc).
    destruct (Hpass idx Hidx) as (x & Hx & Hle).
    rewrite (maximum_nth _ _ _ _ _ _ Hmax Hn Hc) in Hx.
    inversion Hx; subst. exact Hle.
  - rewrite (concat_length_const per_position (length vocab)).
    + apply Forall2_length in Hper. rewrite <- Hper, length_seq. reflexivity.
    + apply Forall_forall. intros rs Hrs.
      destruct (Forall2_In_r _ _ _ _ Hper Hrs)
        as (pos & _ & u_vals & s_vals & sel & _ & _ & Hrows & ->).
      apply Forall2_length in Hrows. rewrite <- Hrows. apply length_seq.
Qed.

Lemma rows_at_total V values min_value vocab chosen_log pos :
  Forall (fun c => length c = V) (unstructured values) ->
  Forall (fun c => length c = V) (structured values) ->
  length (unstructured values) = length (structured values) ->
  (pos < length (unstructured values))%nat ->
  length vocab = V ->
  Forall (fun c => 0 <= c < Z.of_nat V) chosen_log ->
  exists rs, rows_at values min_value vocab chosen_log pos = Ok rs.
Proof.
  intros Hu Hs Hlen Hpos Hv Hch. unfold rows_at.
  destruct (index_nat_total (unstructured values) pos Hpos) as (u_vals & -> & Hiu).
  destruct (index_nat_total (structured values) pos) as (s_vals & -> & His);
    [lia |].
  rewrite Forall_forall in Hu, Hs.
  pose proof (Hu _ Hiu) as Hul. pose proof (Hs _ His) as Hsl.
  unfold rbind at 1 2.
  assert (Hct : exists chosen_token,
            (if (pos <? length chosen_log)%nat
             then (c <~ index_nat chosen_log pos ;;
                   tok <~ index_int vocab c ;;
                   Ok (Some tok))%res
             else Ok None) = Ok chosen_token).
  { destruct (pos <? length chosen_log)%nat eqn:Hp; [| eauto].
    apply Nat.ltb_lt in Hp.
    destruct (index_nat_total chosen_log pos Hp) as (c & -> & Hc).
    rewrite Forall_forall in Hch. specialize (Hch c Hc).
    destruct (index_int_total vocab c) as (tok & Htok & _); [lia |].
    unfold rbind. rewrite Htok. eauto. }
  destruct Hct as (chosen_token & ->). unfold rbind at 1.
  assert (Hsel : exists sel,
            match min_value with
            | Some m =>
                (max_vals <~ maximum u_vals s_vals ;;
                 threshold_indices max_vals m)%res
            | None => Ok (seq 0 (length vocab))
            end = Ok sel /\ Forall (fun idx => (idx < V)%nat) sel).
  { destruct min_value as [m |].
    - destruct (maximum_same_width u_vals s_vals) as (max_vals & Hmax & Hml);
        [congruence |].
      unfold rbind. rewrite Hmax.
      destruct (threshold_indices_spec max_vals m)
        as (sel & Hth & _ & Hpass & _).
      exists sel. split; [exact Hth |].
      apply Forall_forall. intros idx Hidx.
      destruct (Hpass idx Hidx) as (x & Hx & _).
      assert (idx < length max_vals)%nat by (apply nth_error_Some; congruence).
      lia.
    - exists (seq 0 (length vocab)). split; [reflexivity |].
      apply Forall_forall. intros idx Hidx. apply in_seq in Hidx. lia. }
  destruct Hsel as (sel & -> & Hrange). unfold rbind at 1.
  apply map_result_total.
  eapply Forall_impl; [| exact Hrange].
  intros idx Hidx. simpl in Hidx. unfold build_row, rbind.
  destruct (index_nat_total vocab idx) as (tok & -> & _); [lia |].
  destruct (index_nat_total u_vals idx) as (n & -> & _); [lia |].
  destruct (index_nat_total s_vals idx) as (c & -> & _); [lia |].
  eauto.
Qed.

(** The views of a consistent tracker: one column of width [V] per step. *)
Lemma views_of_consistent V (t : LogitTracker N) values :
  consistent V t ->
  get_logits t = (Ok values, t) \/ get_probabilities t = (Ok values, t) ->
  Forall (fun c => length c = V) (unstructured values) /\
  Forall (fun c => length c = V) (structured values) /\
  length (unstructured values) = length (unstructured_logits t) /\
  length (structured values) = length (unstructured_logits t).
Proof.
  intros (_ & Hlen & Hu & Hs & _) [H | H].
  - unfold get_logits, bind, get, lift, ret in H.
    destruct (column_stack (unstructured_logits t)) as [u |] eqn:Hcu;
      [| discriminate].
    destruct (column_stack (structured_logits t)) as [s |] eqn:Hcs;
      [| discriminate].
    apply column_stack_returns in Hcu, Hcs. subst.
    inversion H; subst; simpl. auto.
  - unfold get_probabilities, bind, get, lift, ret in H.
    destruct (column_stack (map softmax (unstructured_logits t))) as [u |] eqn:Hcu;
      [| discriminate].
    destruct (column_stack (map softmax (structured_logits t))) as [s |] eqn:Hcs;
      [| discriminate].
    apply column_stack_returns in Hcu, Hcs. subst.
    inversion H; subst; simpl.
    rewrite !length_map.
    repeat split; auto; now apply softmax_widths.
Qed.

(** C8: on a consistent tracker over [V] tokens, exporting its logits or its
    probabilities returns a table that is, position by position in step
    order, one row per kept index.  Without a threshold the kept indices
    are all [V] vocabulary indices, so the table has steps times [V] rows.
    With a threshold they are distinct indices whose larger value is at
    least the threshold, ten of them or all if fewer pass, and none ranks
    below an index that passes and is left out; so every row of the table
    has its larger value at or above the threshold. *)
Theorem C8_table_rows (t : LogitTracker N) V values min_value :
  consistent V t ->
  get_logits t = (Ok values, t) \/ get_probabilities t = (Ok values, t) ->
  exists rows t' vocab per_position,
    _to_dataframe true values min_value t = (Ok rows, t') /\
    vocab_tokens t' = Some vocab /\
    length vocab = V /\
    rows = concat per_position /\
    Forall2
      (fun pos rs =>
         exists u_vals s_vals sel,
           nth_error (unstructured values) pos = Some u_vals /\
           nth_error (structured values) pos = Some s_vals /\
           Forall2
             (fun idx r =>
                row_position r = pos /\
                nth_error vocab idx = Some (row_token r) /\
                nth_error u_vals idx = Some (natural r) /\
                nth_error s_vals idx = Some (constrained r))
             sel rs /\
           match min_value with
           | None => sel = seq 0 V
           | Some m =>
               exists max_vals,
                 maximum u_vals s_vals = Ok max_vals /\
                 NoDup sel /\
                 (forall i, In i sel ->
                    exists x, nth_error max_vals i = Some x /\
                              score_le m x = true) /\
                 length sel =
                   Nat.min 10 (length (filter (score_le m) max_vals)) /\
                 (forall i j x y,
                    nth_error max_vals i = Some x -> score_le m x = true ->
                    ~ In i sel -> In j sel ->
                    nth_error max_vals j = Some y -> score_le x y = true)
           end)
      (seq 0 (length (unstructured_logits t))) per_position /\
    match min_value with
    | None => length rows = (length (unstructured_logits t) * V)%nat
    | Some m =>
        Forall (fun r => score_le m (score_max (natural r) (constrained r)) = true)
               rows
    end.
Proof.
  intros Hc Hvalues.
  destruct (views_of_consistent V t values Hc Hvalues) as (Hu & Hs & Hlu & Hls).
  destruct (get_vocab_mapping_total V t Hc) as (vocab & t2 & Hvm & Hvl).
  pose proof (get_vocab_mapping_frame _ _ _ Hvm) as (_ & _ & Hch2 & _).
  assert (Hrun : exists rows,
            _to_dataframe true values min_value t = (Ok rows, t2)).
  { unfold _to_dataframe.
    rewrite (bind_returns _ _ _ _ _ Hvm).
    rewrite (bind_returns get _ t2 t2 t2 eq_refl).
    apply for_each_total. intros pos Hpos. apply in_seq in Hpos.
    destruct (rows_at_total V values min_value vocab (chosen_tokens t2) pos)
      as [rs Hrs]; auto; try lia.
    - rewrite Hch2. destruct Hc as (_ & _ & _ & _ & _ & Hch & _). exact Hch.
    - exists rs. unfold lift. rewrite Hrs. reflexivity. }
  destruct Hrun as [rows Hrun].
  destruct (to_dataframe_rows t t2 values min_value rows Hrun)
    as (vocab' & per_position & Hv' & Hrows & Hper & Hcount).
  assert (vocab' = vocab); [| subst vocab'].
  { apply get_vocab_mapping_frame in Hvm as (_ & _ & _ & _ & _ & _ & Hv).
    specialize (Hv vocab eq_refl). congruence. }
  exists rows, t2, vocab, per_position.
  rewrite Hvl, Hlu in *.
  repeat split; assumption.
Qed.

End Table.

(** * Concrete runs *)

(** Two calls through a delegate, then a third: the stores hold two entries
    each, then three. *)
Lemma C1_witness :
  exists outs out (t1 t2 : LogitTracker ZNum),
    process_all (firstn 2 three_calls) (init (Some passing_delegate))
      = (Ok outs, t1) /\
    process_logits [[0; 1; 2]] [[1; 1; 1]] t1 = (Ok out, t2) /\
    length (unstructured_logits t1) = 2%nat /\
    length (structured_logits t1) = 2%nat /\
    length (unstructured_logits t1) = length (structured_logits t1) /\
    length (unstructured_logits t2) = S (length (unstructured_logits t1)) /\
    length (structured_logits t2) = S (length (structured_logits t1)) /\
    length (unstructured_logits t2) = length (structured_logits t2).
Proof.
  do 4 eexists.
  split; [reflexivity |]. split; [reflexivity |].
  apply (C1_stores_grow_together (N:=ZNum) (Some passing_delegate)
           (firstn 2 three_calls) [[0; 1; 2]] [[1; 1; 1]] _ _ _ _
           eq_refl eq_refl).
Defined.

(** Token histories [[0]], [[0,1]], [[0,1,2]] leave the log [1, 2]. *)
Lemma C2_witness :
  exists outs (t' : LogitTracker ZNum),
    Forall (fun c : list (list Z) * @tensor ZNum =>
              (1 < length (hd [] (fst c)))%nat) (tl three_calls) /\
    process_all three_calls (init None) = (Ok outs, t') /\
    _started t' = true /\
    chosen_tokens t' = [1; 2] /\
    length (chosen_tokens t') = (3 - 1)%nat.
Proof.
  assert (Hall : Forall (fun c : list (list Z) * @tensor ZNum =>
                           (1 < length (hd [] (fst c)))%nat) (tl three_calls)).
  { repeat constructor. }
  do 2 eexists.
  split; [exact Hall |]. split; [reflexivity |].
  apply (C2_chosen_token_log (N:=ZNum) None
           ([[0]], [[1; 1; 1]]) (tl three_calls) _ _ Hall eq_refl).
Defined.

(** A score batch of two rows is refused whatever the token history. *)
Lemma C3_witness :
  (1 < length [[1; 1]; [1; 1]] \/ 1 < length [[0]])%nat /\
  process_logits (N:=ZNum) [[0]] [[1; 1]; [1; 1]] (init None) =
    (Raise (ValueError (BatchLogits 2)), init None).
Proof.
  assert (H : (1 < length [[1; 1]; [1; 1]] \/ 1 < length [[0]])%nat)
    by (left; simpl; lia).
  split; [exact H |].
  exact (C3_more_than_one_rejected (N:=ZNum) [[0]] [[1; 1]; [1; 1]] (init None) H).
Defined.

(** C3 as stated fails on empty batches: with no sequence at all in the
    token history the first call returns and records the scores; with no row
    in the score batch the call raises IndexError, not the batch-size
    error. *)
Lemma C3_empty_batch_not_rejected :
  length (@nil (list Z)) <> 1%nat /\
  process_logits (N:=ZNum) [] [[7]] (init None) =
    (Ok [[7]],
     {| processor := None;
        unstructured_logits := [[7]];
        structured_logits := [[7]];
        vocab_tokens := None;
        chosen_tokens := [];
        _started := true;
        tokenizer := None |}) /\
  length (@nil (list Z)) <> 1%nat /\
  process_logits (N:=ZNum) [[0]] [] (init None) = (Raise IndexError, init None).
Proof.
  repeat split; discriminate.
Qed.



(** C5: at the last recorded position an entry whose token decodes to the
    empty string is marked chosen.  The tracker holds one position; token 0
    decodes to the empty string and ranks second. *)
Theorem C5_empty_token_marked_chosen :
  exists reports t',
    get_top_tokens 2 AllPositions false (one_step special_tokenizer)
      = (Ok reports, t') /\
    length (unstructured_logits (one_step special_tokenizer)) = 1%nat /\
    map (fun r => (position r,
                   map (fun e => (token e, is_chosen e)) (tokens r))) reports
      = [(0, [("x", false); ("", true)])].
Proof.
  do 2 eexists. split; [vm_compute; reflexivity |]. split; reflexivity.
Qed.

(** The table of the five-score tracker is built on the first call. *)
Lemma C6_witness :
  exists vocab,
    tokenizer (one_step abc_tokenizer) = Some abc_tokenizer /\
    vocab_tokens (one_step abc_tokenizer) = None /\
    get_vocab_mapping (one_step abc_tokenizer) =
      (Ok vocab, set_vocab_tokens (Some vocab) (one_step abc_tokenizer)) /\
    length vocab = 5%nat.
Proof.
  destruct (proj2 (proj2 (C6_vocab_mapping (one_step abc_tokenizer)))
              abc_tokenizer [2; -1; 1; 0; 3] [] eq_refl eq_refl eq_refl)
    as (vocab & Hrun & Hlen & _).
  { intros i _. discriminate. }
  exists vocab. repeat split; assumption.
Defined.



(** Twelve scores pass the threshold 0; ten rows are kept. *)
Lemma C8_witness :
  exists values,
    consistent 12 twelve_wide /\
    (get_logits twelve_wide = (Ok values, twelve_wide) \/
     get_probabilities twelve_wide = (Ok values, twelve_wide)) /\
    exists rows t',
      _to_dataframe true values (Some 0) twelve_wide = (Ok rows, t') /\
      length rows = 10%nat /\
      Forall (fun r => score_le 0 (score_max (natural r) (constrained r)) = true)
             rows.
Proof.
  eexists.
  assert (Hc : consistent 12 twelve_wide).
  { unfold consistent. simpl.
    split; [discriminate |]. split; [reflexivity |].
    split; [repeat constructor |]. split; [repeat constructor |].
    split; [| split; [constructor | intros d Hd; discriminate]].
    exists abc_tokenizer. split; [reflexivity |].
    intros i _. discriminate. }
  split; [exact Hc |].
  match goal with
  | |- (?H \/ ?H') /\ _ =>
      assert (Hv : H \/ H') by (left; vm_compute; reflexivity)
  end.
  split; [exact Hv |].
  destruct (C8_table_rows (N:=ZNum) twelve_wide 12 _ (Some 0) Hc Hv)
    as (rows & t' & vocab & per_position & Hrun & _ & _ & _ & _ & Hrows).
  exists rows, t'. split; [exact Hrun |]. split; [| exact Hrows].
  assert (Hev : exists rows0 t0,
            _to_dataframe (N:=ZNum) true
              {| unstructured := [[1; 2; 3; 4; 5; 6; 7; 8; 9; 10; 11; 12]];
                 structured := [[1; 2; 3; 4; 5; 6; 7; 8; 9; 10; 11; 12]] |}
              (Some 0) twelve_wide = (Ok rows0, t0) /\ length rows0 = 10%nat).
  { do 2 eexists. split; [vm_compute; reflexivity | reflexivity]. }
  destruct Hev as (rows0 & t0 & Hrun0 & Hlen0).
  assert (Heq : (Ok rows, t') = (Ok rows0, t0))
    by (rewrite <- Hrun; exact Hrun0).
  inversion Heq; subst. exact Hlen0.
Defined.

(** A delegate that raises on the first call. *)
Lemma C10_witness :
  exists t',
    processor (init (Some failing_delegate)) = Some failing_delegate /\
    delegate_process_logits failing_delegate [[0]] [[1; 2]]
      = Raise (DelegateRaised "boom") /\
    process_logits [[0]] [[1; 2]] (init (Some failing_delegate))
      = (Raise (DelegateRaised "boom"), t') /\
    length (unstructured_logits t') = 1%nat /\
    length (structured_logits t') = 0%nat.
Proof.
  destruct (C10_delegate_failure_not_atomic
              (init (Some failing_delegate)) failing_delegate [0] [1; 2]
              (DelegateRaised "boom") eq_refl eq_refl)
    as (t' & Hrun & Hu & Hs & _).
  exists t'. split; [reflexivity |]. split; [reflexivity |].
  split; [exact Hrun |].
  rewrite Hu, Hs. split; reflexivity.
Defined.

(** * Further properties *)

(** ** Recording: what a call returns, what it leaves behind *)

Section RecordingOutcomes.
Context {N : NumLib}.

(** Case analysis of one call of [process_logits], along the statements of
    the method. *)
Ltac open_call t ids lg H :=
  unfold process_logits in H;
  destruct (1 <? length lg)%nat eqn:Hlg;
  [ inversion H; subst; clear H
  | destruct (1 <? length ids)%nat eqn:Hids;
    [ inversion H; subst; clear H
    | destruct lg as [| row lg'];
      [ inversion H; subst; clear H
      | destruct lg' as [| ? ?]; [| simpl in Hlg; discriminate];
        unfold bind, lift, modify, get, ret, raise in H; simpl in H;
        destruct (_started t) eqn:Hst;
        [ destruct ids as [| h ids']; simpl in H;
          [ inversion H; subst; clear H
          | destruct (1 <? length h)%nat eqn:Hh; simpl in H ]
        | simpl in H ];
        try (destruct (processor t) as [d |] eqn:Hp; simpl in H;
             [ match type of H with
               | context [delegate_process_logits d ?a ?b] =>
                   destruct (delegate_process_logits d a b)
                     as [[| prow pr'] | e] eqn:Hd; simpl in H
               end
             | ];
             inversion H; subst; clear H) ] ] ].

(** What a call that returns returns, and what it stored. *)
Lemma process_logits_value ids lg (t t' : LogitTracker N) out :
  process_logits ids lg t = (Ok out, t') ->
  match processor t with
  | None => out = lg
  | Some d => delegate_process_logits d ids lg = Ok out
  end /\
  exists row prow,
    index0 lg = Ok row /\ index0 out = Ok prow /\
    unstructured_logits t' = unstructured_logits t ++ [row] /\
    structured_logits t' = structured_logits t ++ [prow].
Proof.
  intros H. open_call t ids lg H; simpl;
    (split; [first [reflexivity | assumption] |]);
    eexists; eexists; repeat split; reflexivity.
Qed.

(** What a run that returns leaves in the stores. *)
Lemma process_all_stores calls : forall (t t' : LogitTracker N) outs,
  process_all calls t = (Ok outs, t') ->
  length outs = length calls /\
  unstructured_logits t' =
    unstructured_logits t ++ map (fun c => hd [] (snd c)) calls /\
  structured_logits t' = structured_logits t ++ map (hd []) outs /\
  processor t' = processor t /\
  (processor t = None -> outs = map snd calls).
Proof.
  induction calls as [| [ids lg] rest IH]; intros t t' outs H.
  - simpl in H. unfold ret in H. inversion H; subst. simpl.
    rewrite !app_nil_r. auto.
  - apply process_all_cons in H as (out & outs' & t1 & H1 & H2 & ->).
    pose proof (process_logits_returns _ _ _ _ _ H1)
      as (_ & _ & _ & _ & _ & _ & Hp1 & _).
    apply process_logits_value in H1
      as (Hout & row & prow & Hrow & Hprow & Hu & Hs).
    apply IH in H2 as (Hlen & Hu2 & Hs2 & Hp2 & Hnone).
    destruct lg as [| row0 lg0]; [discriminate |].
    destruct out as [| prow0 out0]; [discriminate |].
    simpl in Hrow, Hprow. inversion Hrow; inversion Hprow; subst.
    simpl. rewrite Hu2, Hs2, Hu, Hs, <- !app_assoc. simpl.
    repeat split; auto; try congruence.
    intros Hp. rewrite Hp in Hout.
    f_equal; [exact Hout | apply Hnone; congruence].
Qed.

(** X1: the tracker is transparent.  A call that returns returns the scores
    it was given when there is no delegate, and what the delegate returned
    on the same arguments when there is one; the raw row went to the
    unstructured store and the first row of what is returned to the
    structured store. *)
Theorem X1_process_logits_transparent ids lg (t t' : LogitTracker N) out :
  process_logits ids lg t = (Ok out, t') ->
  match processor t with
  | None => out = lg
  | Some d => delegate_process_logits d ids lg = Ok out
  end /\
  exists row prow,
    index0 lg = Ok row /\ index0 out = Ok prow /\
    unstructured_logits t' = unstructured_logits t ++ [row] /\
    structured_logits t' = structured_logits t ++ [prow].
Proof. apply process_logits_value. Qed.

(** X2: the stores are a verbatim record in call order.  After a run of
    calls that return on a new tracker, the unstructured store lists the
    first rows of the score batches of the calls and the structured store
    the first rows of what the calls returned, one per call, in order. *)
Theorem X2_stores_in_call_order
    (p : option (Processor N)) calls outs (t' : LogitTracker N) :
  process_all calls (init p) = (Ok outs, t') ->
  length outs = length calls /\
  unstructured_logits t' = map (fun c => hd [] (snd c)) calls /\
  structured_logits t' = map (hd []) outs.
Proof.
  intros H. apply process_all_stores in H as (Hl & Hu & Hs & _). auto.
Qed.

(** X3: without a delegate the two stores are equal.  After a run of calls
    that return on a tracker built without processor, every call has
    returned its scores unchanged and the structured store equals the
    unstructured store entry by entry. *)
Theorem X3_unconstrained_stores_equal calls outs (t' : LogitTracker N) :
  process_all calls (init None) = (Ok outs, t') ->
  outs = map snd calls /\
  structured_logits t' = unstructured_logits t'.
Proof.
  intros H. apply process_all_stores in H as (_ & Hu & Hs & _ & Hnone).
  specialize (Hnone eq_refl). split; [exact Hnone |].
  simpl in Hu, Hs. rewrite Hu, Hs, Hnone, map_map. reflexivity.
Qed.

(** X4: an empty token-history batch on a started tracker raises IndexError
    after the raw scores have been recorded: the unstructured store has
    grown by the row, nothing else has changed, and no delegate was
    called. *)
Theorem X4_empty_history_after_start (t : LogitTracker N) row :
  _started t = true ->
  process_logits [] [row] t =
    (Raise IndexError,
     set_unstructured_logits (unstructured_logits t ++ [row]) t).
Proof.
  intros Hst. unfold process_logits, bind, lift, modify, get, ret, raise.
  simpl. rewrite Hst. reflexivity.
Qed.

(** What one call, whatever its outcome, does to each field. *)
Lemma process_logits_frame ids lg (t t' : LogitTracker N) r :
  process_logits ids lg t = (r, t') ->
  (unstructured_logits t' = unstructured_logits t \/
   exists row, unstructured_logits t' = unstructured_logits t ++ [row]) /\
  (structured_logits t' = structured_logits t \/
   exists prow, structured_logits t' = structured_logits t ++ [prow]) /\
  (chosen_tokens t' = chosen_tokens t \/
   exists tok, chosen_tokens t' = chosen_tokens t ++ [tok]) /\
  processor t' = processor t /\
  tokenizer t' = tokenizer t /\
  vocab_tokens t' = vocab_tokens t /\
  (_started t = true -> _started t' = true).
Proof.
  intros H. open_call t ids lg H; simpl;
    repeat split;
    first [ assumption
          | reflexivity
          | left; reflexivity
          | right; eexists; reflexivity
          | intros; reflexivity
          | intros; assumption
          | intros; congruence ].
Qed.

(** An invariant of single calls is an invariant of runs, whatever their
    outcome. *)
Lemma process_all_invariant (P : LogitTracker N -> Prop) :
  (forall ids lg t r t', P t -> process_logits ids lg t = (r, t') -> P t') ->
  forall calls t r t', P t -> process_all calls t = (r, t') -> P t'.
Proof.
  intros Hstep. induction calls as [| [ids lg] rest IH]; intros t r t' HP H.
  - simpl in H. unfold ret in H. inversion H; subst. exact HP.
  - simpl in H. unfold bind at 1 in H.
    destruct (process_logits ids lg t) as [[out | e] t1] eqn:H1.
    + pose proof (Hstep _ _ _ _ _ HP H1) as HP1.
      unfold bind at 1 in H.
      destruct (process_all rest t1) as [[outs | e] t2] eqn:H2.
      * unfold ret in H. inversion H; subst. exact (IH _ _ _ HP1 H2).
      * inversion H; subst. exact (IH _ _ _ HP1 H2).
    + inversion H; subst. exact (Hstep _ _ _ _ _ HP H1).
Qed.

(** X5: calls only append.  Whatever a run of calls does, return or raise,
    the stores and the log it started from are prefixes of the ones it
    leaves; delegate, tokenizer and cached vocabulary table are the same;
    and a started tracker stays started. *)
Theorem X5_calls_only_append calls (t t' : LogitTracker N) r :
  process_all calls t = (r, t') ->
  (exists more, unstructured_logits t' = unstructured_logits t ++ more) /\
  (exists more, structured_logits t' = structured_logits t ++ more) /\
  (exists more, chosen_tokens t' = chosen_tokens t ++ more) /\
  processor t' = processor t /\
  tokenizer t' = tokenizer t /\
  vocab_tokens t' = vocab_tokens t /\
  (_started t = true -> _started t' = true).
Proof.
  apply (process_all_invariant
           (fun t' =>
              (exists more, unstructured_logits t' = unstructured_logits t ++ more) /\
              (exists more, structured_logits t' = structured_logits t ++ more) /\
              (exists more, chosen_tokens t' = chosen_tokens t ++ more) /\
              processor t' = processor t /\
              tokenizer t' = tokenizer t /\
              vocab_tokens t' = vocab_tokens t /\
              (_started t = true -> _started t' = true))).
  - intros ids lg t1 r1 t2 ([u Hu] & [s Hs] & [c Hc] & Hp & Htk & Hv & Hst) H.
    apply process_logits_frame in H
      as (Hu2 & Hs2 & Hc2 & Hp2 & Htk2 & Hv2 & Hst2).
    repeat split; try congruence; try (intros; auto).
    + destruct Hu2 as [-> | [row ->]]; rewrite Hu;
        [eexists; reflexivity | rewrite <- app_assoc; eexists; reflexivity].
    + destruct Hs2 as [-> | [row ->]]; rewrite Hs;
        [eexists; reflexivity | rewrite <- app_assoc; eexists; reflexivity].
    + destruct Hc2 as [-> | [row ->]]; rewrite Hc;
        [eexists; reflexivity | rewrite <- app_assoc; eexists; reflexivity].
  - repeat split; try (exists []; rewrite app_nil_r; reflexivity); auto.
Qed.



(** X7: [clear] loses the lag.  On a started tracker, [clear] followed by a
    call with a token history of more than one token that returns leaves a
    log of one token, the last of that history, beside stores of one entry:
    the log is then as long as the stores, not shorter. *)
Theorem X7_clear_then_call_logs_at_once
    (t t1 t2 : LogitTracker N) h lg out :
  _started t = true ->
  (1 < length h)%nat ->
  clear t = (Ok tt, t1) ->
  process_logits [h] lg t1 = (Ok out, t2) ->
  chosen_tokens t2 = [last h 0] /\
  length (unstructured_logits t2) = 1%nat /\
  length (structured_logits t2) = 1%nat.
Proof.
  intros Hst Hh Hclear Hcall.
  unfold clear, bind, modify in Hclear. simpl in Hclear.
  inversion Hclear; subst t1; clear Hclear.
  apply process_logits_returns in Hcall
    as (row & prow & _ & Hu & Hs & _ & _ & Hc).
  simpl in Hu, Hs, Hc. rewrite Hst in Hc.
  apply Nat.ltb_lt in Hh. rewrite Hh in Hc.
  rewrite Hu, Hs, Hc. auto.
Qed.

End RecordingOutcomes.

(** ** Queries before anything is recorded *)

Section EmptyTracker.
Context {N : NumLib}.

(** X8: on a tracker whose unstructured store is empty, as a new tracker's
    and a cleared one's is, the views and every query built on them raise
    numpy's ValueError and change nothing: [get_logits],
    [get_probabilities], [get_top_tokens] for any arguments, and both table
    exports whether pandas is installed or not.  [get_vocab_mapping], with a
    tokenizer and no table yet, raises IndexError. *)
Theorem X8_queries_on_empty_tracker (t : LogitTracker N) :
  unstructured_logits t = [] ->
  get_logits t = (Raise (ValueError NumpyShape), t) /\
  get_probabilities t = (Raise (ValueError NumpyShape), t) /\
  (forall k positions incl,
     get_top_tokens k positions incl t = (Raise (ValueError NumpyShape), t)) /\
  (forall pandas min_value,
     get_logits_dataframe pandas min_value t
       = (Raise (ValueError NumpyShape), t) /\
     get_probabilities_dataframe pandas min_value t
       = (Raise (ValueError NumpyShape), t)) /\
  (forall tk, tokenizer t = Some tk -> vocab_tokens t = None ->
     get_vocab_mapping t = (Raise IndexError, t)).
Proof.
  intros Hu.
  assert (Hl : get_logits t = (Raise (ValueError NumpyShape), t)).
  { unfold get_logits, bind, get, lift. rewrite Hu. reflexivity. }
  assert (Hp : get_probabilities t = (Raise (ValueError NumpyShape), t)).
  { unfold get_probabilities, bind, get, lift. rewrite Hu. reflexivity. }
  repeat split; auto.
  - intros k positions incl. unfold get_top_tokens.
    unfold bind at 1. unfold get at 1. unfold bind at 1. rewrite Hp. reflexivity.
  - unfold get_logits_dataframe, bind. rewrite Hl. reflexivity.
  - unfold get_probabilities_dataframe, bind. rewrite Hp. reflexivity.
  - intros tk Htk Hv. unfold get_vocab_mapping, bind, get, lift.
    rewrite Htk, Hv, Hu. reflexivity.
Qed.

End EmptyTracker.

(** ** Reports of the top-token query *)

Section Reports.
Context {N : NumLib}.

(** [sequence_up_to] reads the log, the delegate and the tokenizer only. *)
Lemma sequence_up_to_reads (t t2 : LogitTracker N) pos :
  chosen_tokens t2 = chosen_tokens t ->
  processor t2 = processor t ->
  tokenizer t2 = tokenizer t ->
  fst (sequence_up_to pos t2) = fst (sequence_up_to pos t).
Proof.
  intros Hc Hp Htk. unfold sequence_up_to, bind, get, ret, raise.
  rewrite Hc, Hp, Htk.
  destruct (chosen_tokens t); [reflexivity |].
  destruct (processor t) as [d |];
    [destruct (delegate_tokenizer d) as [[k |] |] |];
    try destruct (tokenizer t); reflexivity.
Qed.

Lemma sequence_up_to_result (t : LogitTracker N) pos :
  sequence_up_to pos t = (fst (sequence_up_to pos t), t).
Proof.
  pose proof (sequence_up_to_preserves pos t) as H.
  destruct (sequence_up_to pos t) as [r t1]. simpl in *. now subst.
Qed.

(** All that the loop body has computed when it returns for a position it
    does not skip. *)
Lemma top_tokens_at_full k probs logits vocab pos (t t' : LogitTracker N) rs :
  pos < Z.of_nat (length (unstructured_logits t)) ->
  top_tokens_at k probs logits vocab pos t = (Ok rs, t') ->
  exists text u_probs s_probs logit_cols max_probs next_token infos,
    rs = [ {| position := pos; text_so_far := text; tokens := infos |} ] /\
    sequence_up_to (Some pos) t = (Ok text, t) /\
    index_int (unstructured probs) pos = Ok u_probs /\
    index_int (structured probs) pos = Ok s_probs /\
    match logits with
    | Some lg => exists ul sl,
        index_int (unstructured lg) pos = Ok ul /\
        index_int (structured lg) pos = Ok sl /\
        logit_cols = Some (ul, sl)
    | None => logit_cols = None
    end /\
    maximum u_probs s_probs = Ok max_probs /\
    (if pos <? Z.of_nat (length (structured_logits t)) - 1
     then exists nxt, sequence_up_to (Some (pos + 1)) t = (Ok nxt, t) /\
                      next_token = string_from (String.length text) nxt
     else next_token = "") /\
    map_result (build_token_info vocab u_probs s_probs logit_cols next_token)
               (top_indices k max_probs) = Ok infos.
Proof.
  intros Hpos. unfold top_tokens_at. unfold bind at 1. unfold get at 1.
  apply Z.leb_gt in Hpos. rewrite Hpos.
  unfold bind at 1.
  rewrite (sequence_up_to_result t (Some pos)).
  destruct (fst (sequence_up_to (Some pos) t)) as [text | e] eqn:Htext;
    [| discriminate].
  unfold bind at 1, lift at 1.
  destruct (index_int (unstructured probs) pos) as [u_probs | e] eqn:Hu;
    [| discriminate].
  unfold bind at 1, lift at 1.
  destruct (index_int (structured probs) pos) as [s_probs | e] eqn:Hs;
    [| discriminate].
  unfold bind at 1.
  destruct logits as [lg |].
  - unfold bind at 1, lift at 1.
    destruct (index_int (unstructured lg) pos) as [ul | e] eqn:Hul;
      [| discriminate].
    unfold bind at 1, lift at 1.
    destruct (index_int (structured lg) pos) as [sl | e] eqn:Hsl;
      [| discriminate].
    unfold ret at 1.
    unfold bind at 1, lift at 1.
    destruct (maximum u_probs s_probs) as [max_probs | e] eqn:Hmax;
      [| discriminate].
    unfold bind at 1.
    destruct (pos <? Z.of_nat (length (structured_logits t)) - 1) eqn:Hlast.
    + unfold bind at 1.
      rewrite (sequence_up_to_result t (Some (pos + 1))).
      destruct (fst (sequence_up_to (Some (pos + 1)) t)) as [nxt | e] eqn:Hnxt;
        [| discriminate].
      unfold ret at 1. unfold bind at 1, lift at 1.
      destruct (map_result _ (top_indices k max_probs)) as [infos | e] eqn:Hi;
        [| discriminate].
      unfold ret. intros H; inversion H; subst.
      exists text, u_probs, s_probs, (Some (ul, sl)), max_probs,
        (string_from (String.length text) nxt), infos.
      repeat split; eauto.
    + unfold ret at 1. unfold bind at 1, lift at 1.
      destruct (map_result _ (top_indices k max_probs)) as [infos | e] eqn:Hi;
        [| discriminate].
      unfold ret. intros H; inversion H; subst.
      exists text, u_probs, s_probs, (Some (ul, sl)), max_probs, "", infos.
      repeat split; eauto.
  - unfold ret at 1.
    unfold bind at 1, lift at 1.
    destruct (maximum u_probs s_probs) as [max_probs | e] eqn:Hmax;
      [| discriminate].
    unfold bind at 1.
    destruct (pos <? Z.of_nat (length (structured_logits t)) - 1) eqn:Hlast.
    + unfold bind at 1.
      rewrite (sequence_up_to_result t (Some (pos + 1))).
      destruct (fst (sequence_up_to (Some (pos + 1)) t)) as [nxt | e] eqn:Hnxt;
        [| discriminate].
      unfold ret at 1. unfold bind at 1, lift at 1.
      destruct (map_result _ (top_indices k max_probs)) as [infos | e] eqn:Hi;
        [| discriminate].
      unfold ret. intros H; inversion H; subst.
      exists text, u_probs, s_probs, None, max_probs,
        (string_from (String.length text) nxt), infos.
      repeat split; eauto.
    + unfold ret at 1. unfold bind at 1, lift at 1.
      destruct (map_result _ (top_indices k max_probs)) as [infos | e] eqn:Hi;
        [| discriminate].
      unfold ret. intros H; inversion H; subst.
      exists text, u_probs, s_probs, None, max_probs, "", infos.
      repeat split; eauto.
Qed.

(** All that [get_top_tokens] has computed when it returns. *)
Lemma get_top_tokens_full k positions incl (t t' : LogitTracker N) reports :
  get_top_tokens k positions incl t = (Ok reports, t') ->
  exists vocab,
    get_vocab_mapping t = (Ok vocab, t') /\
    for_each (resolve_positions positions t)
      (top_tokens_at k
         {| unstructured := map softmax (unstructured_logits t);
            structured := map softmax (structured_logits t) |}
         (if incl
          then Some {| unstructured := unstructured_logits t;
                       structured := structured_logits t |}
          else None)
         vocab) t' = (Ok reports, t').
Proof.
  unfold get_top_tokens. unfold bind at 1. unfold get at 1.
  unfold bind at 1.
  unfold get_probabilities at 1, bind at 1, get at 1, bind at 1, lift at 1,
    column_stack at 1.
  destruct (stackable (map softmax (unstructured_logits t))); [| discriminate].
  unfold bind at 1, lift at 1, column_stack at 1.
  destruct (stackable (map softmax (structured_logits t))); [| discriminate].
  unfold ret at 1.
  unfold bind at 1.
  destruct incl.
  - unfold bind at 1.
    unfold get_logits at 1, bind at 1, get at 1, bind at 1, lift at 1,
      column_stack at 1.
    destruct (stackable (unstructured_logits t)); [| discriminate].
    unfold bind at 1, lift at 1, column_stack at 1.
    destruct (stackable (structured_logits t)); [| discriminate].
    unfold ret at 1. unfold ret at 1.
    unfold bind at 1.
    destruct (get_vocab_mapping t) as [[vocab | e] t2] eqn:Hv; [| discriminate].
    intros H. exists vocab.
    pose proof H as H'.
    apply for_each_returns in H' as [-> _];
      [| intros; apply top_tokens_at_preserves].
    split; [reflexivity | exact H].
  - unfold ret at 1.
    unfold bind at 1.
    destruct (get_vocab_mapping t) as [[vocab | e] t2] eqn:Hv; [| discriminate].
    intros H. exists vocab.
    pose proof H as H'.
    apply for_each_returns in H' as [-> _];
      [| intros; apply top_tokens_at_preserves].
    split; [reflexivity | exact H].
Qed.

Lemma build_token_info_logits vocab u_probs s_probs logit_cols next_token idx info :
  build_token_info vocab u_probs s_probs logit_cols next_token idx = Ok info ->
  match logit_cols with
  | Some (ul, sl) =>
      exists x y, nth_error ul idx = Some x /\ nth_error sl idx = Some y /\
                  logit_values info = Some (x, y)
  | None => logit_values info = None
  end.
Proof.
  unfold build_token_info, rbind.
  destruct (index_nat vocab idx) as [tok |]; [| discriminate].
  destruct (index_nat u_probs idx) as [up |]; [| discriminate].
  destruct (index_nat s_probs idx) as [sp |]; [| discriminate].
  destruct logit_cols as [[ul sl] |].
  - destruct (index_nat ul idx) as [x |] eqn:Hx; [| discriminate].
    destruct (index_nat sl idx) as [y |] eqn:Hy; [| discriminate].
    apply index_nat_Some in Hx, Hy.
    intros H; inversion H; subst; simpl. eauto.
  - intros H; inversion H; subst; simpl. reflexivity.
Qed.

(** Every report, with all that went into it. *)
Lemma get_top_tokens_report_full
    k positions incl (t t' : LogitTracker N) reports r :
  get_top_tokens k positions incl t = (Ok reports, t') ->
  In r reports ->
  exists vocab u s logit_cols max_probs next_token,
    vocab_tokens t' = Some vocab /\
    sequence_up_to (Some (position r)) t = (Ok (text_so_far r), t) /\
    index_int (unstructured_logits t) (position r) = Ok u /\
    index_int (structured_logits t) (position r) = Ok s /\
    logit_cols = (if incl then Some (u, s) else None) /\
    maximum (softmax u) (softmax s) = Ok max_probs /\
    (if position r <? Z.of_nat (length (structured_logits t)) - 1
     then exists nxt,
            sequence_up_to (Some (position r + 1)) t = (Ok nxt, t) /\
            next_token = string_from (String.length (text_so_far r)) nxt
     else next_token = "") /\
    map_result
      (build_token_info vocab (softmax u) (softmax s) logit_cols next_token)
      (top_indices k max_probs) = Ok (tokens r).
Proof.
  intros Hrun Hin.
  apply get_top_tokens_full in Hrun as (vocab & Hvm & Hloop).
  pose proof (get_vocab_mapping_frame _ _ _ Hvm)
    as (Hu & Hs & Hc & Hp & Htk & _ & Hv).
  specialize (Hv vocab eq_refl).
  apply for_each_returns in Hloop as [_ (yss & HF & ->)];
    [| intros; apply top_tokens_at_preserves].
  apply in_concat in Hin as (ys & Hys & Hr).
  destruct (Forall2_In_r _ _ _ _ HF Hys) as (pos & Hpos & Hbody).
  destruct (Z_lt_le_dec pos (Z.of_nat (length (unstructured_logits t'))))
    as [Hlt | Hge].
  2:{ rewrite (top_tokens_at_skip _ _ _ _ _ _ Hge) in Hbody.
      inversion Hbody; subst. contradiction. }
  apply top_tokens_at_full in Hbody
    as (text & u_probs & s_probs & logit_cols & max_probs & next_token & infos
        & -> & Htext & Hup & Hsp & Hlc & Hmax & Hnext & Hinfos);
    [| exact Hlt].
  destruct Hr as [<- | []]. simpl in *.
  apply index_int_map in Hup as (u & Hiu & ->).
  apply index_int_map in Hsp as (s & His & ->).
  assert (Hseq : forall q,
            fst (sequence_up_to q t') = fst (sequence_up_to (N:=N) q t))
    by (intros q; apply sequence_up_to_reads; assumption).
  exists vocab, u, s, logit_cols, max_probs, next_token.
  split; [exact Hv |].
  split.
  { rewrite (sequence_up_to_result t), <- Hseq, Htext. reflexivity. }
  split; [exact Hiu |]. split; [exact His |].
  split.
  { destruct incl.
    - destruct Hlc as (ul & sl & Hul & Hsl & ->). simpl in Hul, Hsl.
      rewrite Hiu in Hul. rewrite His in Hsl.
      inversion Hul; inversion Hsl; subst. reflexivity.
    - exact Hlc. }
  split; [exact Hmax |].
  split; [| exact Hinfos].
  rewrite Hs in Hnext.
  destruct (pos <? Z.of_nat (length (structured_logits t)) - 1); [| exact Hnext].
  destruct Hnext as (nxt & Hnxt & ->). exists nxt. split; [| reflexivity].
  rewrite (sequence_up_to_result t), <- Hseq, Hnxt. reflexivity.
Qed.

(** X9: a report is coherent.  In everything [get_top_tokens] returns, the
    text of a report is what [sequence_up_to] gives for its position, and
    each entry is about one vocabulary index: its token is the entry of the
    vocabulary table at that index, its two probabilities are the softmax
    of the two vectors recorded at the position read at that index, and its
    logit values, present exactly when they were asked for, are those two
    vectors read at that index. *)
Theorem X9_reports_coherent
    k positions incl (t t' : LogitTracker N) reports :
  get_top_tokens k positions incl t = (Ok reports, t') ->
  exists vocab,
    vocab_tokens t' = Some vocab /\
    Forall
      (fun r =>
         sequence_up_to (Some (position r)) t = (Ok (text_so_far r), t) /\
         exists u s,
           index_int (unstructured_logits t) (position r) = Ok u /\
           index_int (structured_logits t) (position r) = Ok s /\
           Forall
             (fun e =>
                exists idx,
                  nth_error vocab idx = Some (token e) /\
                  nth_error (softmax u) idx = Some (unstructured_prob e) /\
                  nth_error (softmax s) idx = Some (structured_prob e) /\
                  match logit_values e with
                  | Some (x, y) =>
                      incl = true /\
                      nth_error u idx = Some x /\ nth_error s idx = Some y
                  | None => incl = false
                  end)
             (tokens r))
      reports.
Proof.
  intros Hrun.
  destruct (get_top_tokens_full _ _ _ _ _ _ Hrun) as (vocab & Hvm & _).
  apply get_vocab_mapping_frame in Hvm as (_ & _ & _ & _ & _ & _ & Hv).
  specialize (Hv vocab eq_refl).
  exists vocab. split; [exact Hv |].
  apply Forall_forall. intros r Hr.
  destruct (get_top_tokens_report_full _ _ _ _ _ _ _ Hrun Hr)
    as (vocab' & u & s & logit_cols & max_probs & next_token
        & Hv' & Htext & Hu & Hs & Hlc & _ & _ & Hinfos).
  assert (vocab' = vocab) by congruence. subst vocab'.
  split; [exact Htext |].
  exists u, s. split; [exact Hu |]. split; [exact Hs |].
  apply map_result_Forall2 in Hinfos.
  apply Forall_forall. intros e He.
  destruct (Forall2_In_r _ _ _ _ Hinfos He) as (idx & _ & Hb).
  pose proof (build_token_info_logits _ _ _ _ _ _ _ Hb) as Hlv.
  apply build_token_info_values in Hb as (Htok & Hup & Hsp & _).
  exists idx. repeat split; try assumption.
  subst logit_cols. destruct incl.
  - destruct Hlv as (x & y & Hx & Hy & ->). auto.
  - rewrite Hlv. reflexivity.
Qed.

End Reports.

(** ** Decoding the log *)

Section Decoding.
Context {N : NumLib}.

Lemma string_from_app (a b : string) :
  string_from (String.length a) (a ++ b) = b.
Proof.
  induction a as [| ch a IH]; simpl; [reflexivity | exact IH].
Qed.

Lemma join_cons (x : string) (l : list string) :
  String.concat "" (x :: l) = (x ++ String.concat "" l)%string.
Proof.
  destruct l as [| y l]; simpl; [| reflexivity].
  induction x as [| ch x IH]; simpl; [reflexivity | now rewrite <- IH].
Qed.

Lemma join_app (l1 l2 : list string) :
  String.concat "" (l1 ++ l2) =
  (String.concat "" l1 ++ String.concat "" l2)%string.
Proof.
  induction l1 as [| x l1 IH].
  - reflexivity.
  - change ((x :: l1) ++ l2) with (x :: (l1 ++ l2)).
    rewrite !join_cons, IH.
    induction x as [| ch x IHx]; simpl; [reflexivity | now rewrite IHx].
Qed.

(** [l[:p] + l[p:] == l], whatever the sign of [p]. *)
Lemma slice_to_from {A} p (l : list A) : slice_to p l ++ slice_from p l = l.
Proof.
  unfold slice_to, slice_from. destruct (p <? 0); apply firstn_skipn.
Qed.

Lemma firstn_succ_nth {A} (l : list A) n c :
  nth_error l n = Some c -> firstn (S n) l = firstn n l ++ [c].
Proof.
  revert n. induction l as [| x l IH]; intros [| n] H; simpl in *;
    try discriminate.
  - inversion H. reflexivity.
  - now rewrite (IH n H).
Qed.

(** What [sequence_up_to] returns when there is a tokenizer to decode with. *)
Lemma sequence_up_to_decodes (t : LogitTracker N) tk pos :
  decoding_tokenizer t = Some tk ->
  sequence_up_to pos t =
    (Ok (match chosen_tokens t with
         | [] => ""
         | _ :: _ =>
             String.concat ""
               (decode tk
                  (slice_to (match pos with
                             | None => Z.of_nat (length (chosen_tokens t))
                             | Some p => p
                             end) (chosen_tokens t)))
         end), t).
Proof.
  unfold decoding_tokenizer, sequence_up_to, bind, get, ret, raise.
  intros Hd. destruct (chosen_tokens t); [reflexivity |].
  rewrite Hd. reflexivity.
Qed.

(** With a tokenizer that decodes token by token, as one that decodes a
    batch of one-token sequences does. *)
Lemma sequence_up_to_names (t : LogitTracker N) tk name p :
  decoding_tokenizer t = Some tk ->
  (forall ids, decode tk ids = map name ids) ->
  sequence_up_to (Some p) t =
    (Ok (String.concat "" (map name (slice_to p (chosen_tokens t)))), t).
Proof.
  intros Hd Hname. rewrite (sequence_up_to_decodes t tk _ Hd).
  destruct (chosen_tokens t) as [| c cs] eqn:Hc.
  - unfold slice_to. destruct (p <? 0); rewrite firstn_nil; reflexivity.
  - rewrite Hname. reflexivity.
Qed.

(** X10: the reconstructed text splits at any position.  With a tokenizer
    that decodes token by token, [sequence_up_to(p)] is the concatenation of
    the strings of the chosen tokens [chosen[:p]], for negative [p] and [p]
    past the end as well, and the whole sequence is that text followed by
    the strings of [chosen[p:]]. *)
Theorem X10_sequence_splits (t : LogitTracker N) tk name p :
  decoding_tokenizer t = Some tk ->
  (forall ids, decode tk ids = map name ids) ->
  let before := String.concat "" (map name (slice_to p (chosen_tokens t))) in
  let after := String.concat "" (map name (slice_from p (chosen_tokens t))) in
  sequence_up_to (Some p) t = (Ok before, t) /\
  sequence_up_to None t = (Ok (before ++ after)%string, t).
Proof.
  intros Hd Hname before after. subst before after.
  split; [now apply (sequence_up_to_names t tk) |].
  rewrite <- join_app, <- map_app, slice_to_from.
  rewrite (sequence_up_to_decodes t tk _ Hd).
  destruct (chosen_tokens t) as [| c cs] eqn:Hc; [reflexivity |].
  rewrite Hname, slice_to_beyond by lia. reflexivity.
Qed.



End Decoding.

(** ** One tokenizer for the table and for the text *)

Section OneTokenizer.
Context {N : NumLib}.


(** The table built with a tokenizer that decodes token by token holds the
    string of each index. *)
Lemma vocab_built_names (t t' : LogitTracker N) tk name vocab :
  tokenizer t = Some tk ->
  vocab_tokens t = None ->
  (forall ids, decode tk ids = map name ids) ->
  get_vocab_mapping t = (Ok vocab, t') ->
  forall idx s, nth_error vocab idx = Some s -> s = name (Z.of_nat idx).
Proof.
  intros Htk Hv Hname. unfold get_vocab_mapping, bind, get, lift, ret, modify.
  rewrite Htk, Hv.
  destruct (index0 (unstructured_logits t)) as [first |]; [| discriminate].
  destruct (map_result _ (seq 0 (length first))) as [vocab0 |] eqn:Hb;
    [| discriminate].
  intros H; inversion H; subst vocab0; clear H.
  apply map_result_Forall2 in Hb.
  assert (Hgen : forall start n v,
            Forall2 (fun i y => index0 (decode tk [Z.of_nat i]) = Ok y)
                    (seq start n) v ->
            forall idx s, nth_error v idx = Some s ->
                          s = name (Z.of_nat (start + idx))).
  { intros start n. revert start.
    induction n as [| n IH]; intros start v HF idx s Hs; simpl in HF.
    - inversion HF; subst. destruct idx; discriminate.
    - inversion HF as [| i y l l' Hy Hrest]; subst.
      destruct idx as [| idx]; simpl in Hs.
      + inversion Hs; subst. rewrite Hname in Hy. simpl in Hy.
        inversion Hy. now rewrite Nat.add_0_r.
      + rewrite (IH (S start) l' Hrest idx s Hs). f_equal. lia. }
  intros idx s Hs. exact (Hgen 0%nat _ _ Hb idx s Hs).
Qed.

(** X12: the chosen token is the one marked.  With a tokenizer that decodes
    token by token and a vocabulary table built with it, in a report for a
    position before the last whose chosen token [c] is in the log, every
    entry is marked chosen exactly when its token string equals the string
    of [c]; so the entry of index [c] is marked, and so is every other
    entry whose index decodes to the same string. *)
Theorem X12_is_chosen_marks_chosen_token
    k positions incl (t t' : LogitTracker N) reports r tk name c :
  get_top_tokens k positions incl t = (Ok reports, t') ->
  In r reports ->
  tokenizer t = Some tk ->
  decoding_tokenizer t = Some tk ->
  (forall ids, decode tk ids = map name ids) ->
  vocab_tokens t = None ->
  0 <= position r < Z.of_nat (length (structured_logits t)) - 1 ->
  nth_error (chosen_tokens t) (Z.to_nat (position r)) = Some c ->
  Forall
    (fun e =>
       is_chosen e = String.eqb (token e) (name c) /\
       exists idx,
         token e = name (Z.of_nat idx) /\
         (Z.of_nat idx = c -> is_chosen e = true))
    (tokens r).
Proof.
  intros Hrun Hr Htk Hd Hname Hv Hpos Hc.
  destruct (get_top_tokens_full _ _ _ _ _ _ Hrun) as (vocab0 & Hvm & _).
  pose proof (vocab_built_names t t' tk name vocab0 Htk Hv Hname Hvm) as Hnames.
  apply get_vocab_mapping_frame in Hvm as (_ & _ & _ & _ & _ & _ & Hv0).
  specialize (Hv0 vocab0 eq_refl).
  destruct (get_top_tokens_report_full _ _ _ _ _ _ _ Hrun Hr)
    as (vocab & u & s & logit_cols & max_probs & next_token
        & Hv' & Htext & _ & _ & _ & _ & Hnext & Hinfos).
  assert (vocab = vocab0) by congruence. subst vocab.
  assert (Hlt : (position r <? Z.of_nat (length (structured_logits t)) - 1) = true)
    by (apply Z.ltb_lt; lia).
  rewrite Hlt in Hnext. destruct Hnext as (nxt & Hnxt & Hnt).
  rewrite (sequence_up_to_names t tk name _ Hd Hname) in Htext.
  rewrite (sequence_up_to_names t tk name _ Hd Hname) in Hnxt.
  inversion Htext as [Ht]. inversion Hnxt as [Hn].
  assert (Hnext : next_token = name c).
  { rewrite Hnt, <- Ht, <- Hn. unfold slice_to.
    destruct (position r <? 0) eqn:Hneg; [apply Z.ltb_lt in Hneg; lia |].
    destruct (position r + 1 <? 0) eqn:Hneg'; [apply Z.ltb_lt in Hneg'; lia |].
    replace (Z.to_nat (position r + 1)) with (S (Z.to_nat (position r))) by lia.
    rewrite (firstn_succ_nth _ _ _ Hc), map_app, join_app. simpl.
    apply string_from_app. }
  apply map_result_Forall2 in Hinfos.
  apply Forall_forall. intros e He.
  destruct (Forall2_In_r _ _ _ _ Hinfos He) as (idx & _ & Hb).
  apply build_token_info_values in Hb as (Htok & _ & _ & Hchosen).
  rewrite Hnext in Hchosen. split; [exact Hchosen |].
  exists idx. pose proof (Hnames idx _ Htok) as Hname_idx.
  split; [exact Hname_idx |].
  intros Heq. rewrite Hchosen, Hname_idx, Heq. apply String.eqb_refl.
Qed.

End OneTokenizer.

(** ** Table export: the chosen column and the missing dependency *)

Section TableFurther.
Context {N : NumLib}.

(** The chosen token the loop body of [_to_dataframe] compares with, and the
    rows it builds. *)
Lemma rows_at_chosen values min_value vocab chosen_log pos rs :
  rows_at values min_value vocab chosen_log pos = Ok rs ->
  Forall
    (fun r =>
       row_position r = pos /\
       match nth_error chosen_log pos with
       | Some c => exists tok, index_int vocab c = Ok tok /\
                               chosen r = String.eqb (row_token r) tok
       | None => chosen r = false
       end)
    rs.
Proof.
  unfold rows_at. unfold rbind at 1.
  destruct (index_nat (unstructured values) pos) as [u_vals |]; [| discriminate].
  unfold rbind at 1.
  destruct (index_nat (structured values) pos) as [s_vals |]; [| discriminate].
  unfold rbind at 1.
  destruct (pos <? length chosen_log)%nat eqn:Hp.
  - unfold rbind at 1.
    destruct (index_nat chosen_log pos) as [c |] eqn:Hc; [| discriminate].
    apply index_nat_Some in Hc.
    unfold rbind at 1.
    destruct (index_int vocab c) as [tok |] eqn:Htok; [| discriminate].
    unfold rbind at 1.
    match goal with
    | |- context [match ?sel with Ok _ => _ | Raise _ => _ end = _] =>
        destruct sel as [valid |]; [| discriminate]
    end.
    intros Hrs. apply map_result_Forall2 in Hrs.
    apply Forall_forall. intros r Hr.
    destruct (Forall2_In_r _ _ _ _ Hrs Hr) as (idx & _ & Hb).
    apply build_row_values in Hb as (Hpos & _ & _ & _ & Hch).
    split; [exact Hpos |]. rewrite Hc. exists tok. split; [exact Htok |].
    exact Hch.
  - unfold rbind at 1.
    match goal with
    | |- context [match ?sel with Ok _ => _ | Raise _ => _ end = _] =>
        destruct sel as [valid |]; [| discriminate]
    end.
    intros Hrs. apply map_result_Forall2 in Hrs.
    apply Forall_forall. intros r Hr.
    destruct (Forall2_In_r _ _ _ _ Hrs Hr) as (idx & _ & Hb).
    apply build_row_values in Hb as (Hpos & _ & _ & _ & Hch).
    split; [exact Hpos |].
    apply Nat.ltb_ge in Hp. apply nth_error_None in Hp. rewrite Hp.
    exact Hch.
Qed.

(** X13: the [chosen] column of the table.  In every table
    [_to_dataframe] returns, a row of a position whose chosen token is in
    the log is marked chosen exactly when its token string equals the entry
    of the vocabulary table at that token id, and a row of a position past
    the end of the log is never marked, whatever its token string. *)
Theorem X13_chosen_column
    pandas values min_value (t t' : LogitTracker N) rows :
  _to_dataframe pandas values min_value t = (Ok rows, t') ->
  exists vocab,
    vocab_tokens t' = Some vocab /\
    Forall
      (fun r =>
         match nth_error (chosen_tokens t) (row_position r) with
         | Some c => exists tok, index_int vocab c = Ok tok /\
                                 chosen r = String.eqb (row_token r) tok
         | None => chosen r = false
         end)
      rows.
Proof.
  intros Hrun.
  apply to_dataframe_returns in Hrun as (_ & vocab & per_position & Hvm & HF & ->).
  apply get_vocab_mapping_frame in Hvm as (_ & _ & Hc & _ & _ & _ & Hv).
  exists vocab. split; [now apply Hv |].
  apply Forall_forall. intros r Hr.
  apply in_concat in Hr as (rs & Hrs & Hr).
  destruct (Forall2_In_r _ _ _ _ HF Hrs) as (pos & _ & Hrows).
  apply rows_at_chosen in Hrows. rewrite Forall_forall in Hrows.
  destruct (Hrows r Hr) as [-> Hch]. rewrite <- Hc. exact Hch.
Qed.

(** X14: without pandas no table is exported and nothing changes: the
    exports raise ImportError once the view is built, and the ValueError of
    the view when it cannot be built; the vocabulary table is not built on
    the way. *)
Theorem X14_export_without_pandas (t : LogitTracker N) min_value :
  get_logits_dataframe false min_value t =
    (Raise (if stackable (unstructured_logits t)
               && stackable (structured_logits t)
            then ImportError else ValueError NumpyShape), t) /\
  get_probabilities_dataframe false min_value t =
    (Raise (if stackable (map softmax (unstructured_logits t))
               && stackable (map softmax (structured_logits t))
            then ImportError else ValueError NumpyShape), t).
Proof.
  split.
  - unfold get_logits_dataframe, get_logits, bind, get, lift, ret, column_stack.
    destruct (stackable (unstructured_logits t)); [| reflexivity].
    destruct (stackable (structured_logits t)); reflexivity.
  - unfold get_probabilities_dataframe, get_probabilities, bind, get, lift,
      ret, column_stack.
    destruct (stackable (map softmax (unstructured_logits t))); [| reflexivity].
    destruct (stackable (map softmax (structured_logits t))); reflexivity.
Qed.

End TableFurther.

(** ** Attaching a tracker *)

Section Attach.
Context {N : NumLib}.

(** X15: [track_logits] installs exactly the tracker the constructor builds
    over the generator's processor: the tokenizer it copies from the
    processor afterwards is the one the constructor has already taken.  It
    refuses a generator without a [logits_processor] attribute and accepts
    one whose attribute holds [None]. *)
Theorem X15_track_logits_installs_new_tracker (generator : SequenceGenerator) :
  track_logits generator =
    match logits_processor generator with
    | None => Unsupported
    | Some p => Tracking (init p)
    end.
Proof.
  unfold track_logits.
  destruct (logits_processor generator) as [[d |] |]; try reflexivity.
  unfold init, set_tokenizer. simpl.
  destruct (delegate_tokenizer d); reflexivity.
Qed.

End Attach.

(** ** Querying the step of a failed call *)

Section FailedStep.
Context {N : NumLib} {L : NumLaws N}.

Lemma bind_raises {S A B} (m : M S A) (f : A -> M S B) s e s' :
  m s = (Raise e, s') -> bind m f s = (Raise e, s').
Proof. intros H. unfold bind. rewrite H. reflexivity. Qed.

Lemma index_int_at_length {A} (l : list A) :
  index_int l (Z.of_nat (length l)) = Raise IndexError.
Proof.
  unfold index_int.
  destruct (Z.of_nat (length l) <? 0) eqn:Hneg; [apply Z.ltb_lt in Hneg; lia |].
  unfold index_nat. rewrite Nat2Z.id.
  rewrite (proj2 (nth_error_None l (length l))); [reflexivity | lia].
Qed.

(** The tracker a call leaves when its delegate raises. *)
Lemma delegate_failure_state (t0 : LogitTracker N) d h row e :
  processor t0 = Some d ->
  delegate_process_logits d [h] [row] = Raise e ->
  exists t,
    process_logits [h] [row] t0 = (Raise e, t) /\
    unstructured_logits t = unstructured_logits t0 ++ [row] /\
    structured_logits t = structured_logits t0 /\
    processor t = processor t0 /\
    tokenizer t = tokenizer t0 /\
    vocab_tokens t = vocab_tokens t0.
Proof.
  intros Hp Hd. unfold process_logits. simpl.
  unfold bind, lift, modify, get, ret, raise. simpl.
  destruct (_started t0); simpl;
    [destruct (1 <? length h)%nat; simpl |];
    rewrite Hp; simpl; rewrite Hd; simpl;
    eexists; repeat split; simpl; first [reflexivity | exact Hp].
Qed.

(** X16: the step of a failed call cannot be queried.  When the delegate
    raises during a call on a consistent tracker, the tracker is left with
    one unstructured vector more than structured ones (C10); on it
    [get_top_tokens] for the position of that step raises IndexError, while
    the positions the query takes by default stop before that step. *)
Theorem X16_failed_step_position_raises
    (t0 : LogitTracker N) V d h row e k incl :
  consistent V t0 ->
  processor t0 = Some d ->
  delegate_process_logits d [h] [row] = Raise e ->
  length row = V ->
  exists t t2,
    process_logits [h] [row] t0 = (Raise e, t) /\
    get_top_tokens k
      (OnePosition (Z.of_nat (length (unstructured_logits t0)))) incl t
      = (Raise IndexError, t2) /\
    resolve_positions AllPositions t =
      map Z.of_nat (seq 0 (length (unstructured_logits t0))).
Proof.
  intros Hc Hp Hd Hrow.
  destruct (delegate_failure_state t0 d h row e Hp Hd)
    as (t & Hcall & Hu & Hs & Hpt & Htkt & Hvt).
  destruct Hc as (Hne & Hlen & Hwu & Hws & (tk & Htk & Hvocab) & _ & Hdt).
  assert (Hwu' : Forall (fun v => length v = V) (unstructured_logits t)).
  { rewrite Hu. apply Forall_app. split; [exact Hwu | repeat constructor; exact Hrow]. }
  assert (Hneu : unstructured_logits t <> []).
  { rewrite Hu. destruct (unstructured_logits t0); discriminate. }
  assert (Hnes : structured_logits t <> []).
  { rewrite Hs. destruct (structured_logits t0);
      [destruct (unstructured_logits t0); [congruence | discriminate]
      | discriminate]. }
  assert (Hws' : Forall (fun v => length v = V) (structured_logits t))
    by (rewrite Hs; exact Hws).
  (* the vocabulary table *)
  assert (Hvm : exists vocab t2,
            get_vocab_mapping t = (Ok vocab, t2)).
  { destruct (vocab_tokens t) as [vocab |] eqn:Hv.
    - exists vocab, t. apply (get_vocab_mapping_cached t tk); congruence.
    - destruct (unstructured_logits t0) as [| first rest] eqn:Hu0; [congruence |].
      assert (Hfirst : length first = V)
        by (rewrite Forall_forall in Hwu; apply Hwu; left; reflexivity).
      assert (Hv0 : vocab_tokens t0 = None) by congruence.
      rewrite Hv0 in Hvocab.
      destruct (get_vocab_mapping_builds t tk first (rest ++ [row]))
        as (vocab & Hrun & _);
        [congruence | exact Hv | rewrite Hu; reflexivity
        | rewrite Hfirst; exact Hvocab |].
      eauto. }
  destruct Hvm as (vocab & t2 & Hvm).
  exists t, t2. split; [exact Hcall |]. split.
  2:{ unfold resolve_positions. rewrite Hs, Hlen. reflexivity. }
  pose proof (get_vocab_mapping_frame _ _ _ Hvm)
    as (Hu2 & Hs2 & _ & Hp2 & Htk2 & _).
  unfold get_top_tokens.
  rewrite (bind_returns get _ t t t eq_refl).
  assert (Hprobs : get_probabilities t =
               (Ok {| unstructured := map softmax (unstructured_logits t);
                      structured := map softmax (structured_logits t) |}, t)).
  { unfold get_probabilities, bind, get, lift, ret, column_stack.
    rewrite (stackable_uniform _ V);
      [| destruct (unstructured_logits t); [congruence | discriminate]
       | now apply softmax_widths].
    rewrite (stackable_uniform _ V);
      [reflexivity
      | destruct (structured_logits t); [congruence | discriminate]
      | now apply softmax_widths]. }
  rewrite (bind_returns _ _ _ _ _ Hprobs).
  assert (Hl : exists logits,
            (if incl then (lg <- get_logits ;; ret (Some lg))%py else ret None) t =
            (Ok logits, t)).
  { destruct incl; [| eexists; reflexivity].
    unfold get_logits, bind, get, lift, ret, column_stack.
    rewrite (stackable_uniform _ V); [| assumption | assumption].
    rewrite (stackable_uniform _ V); [| assumption | assumption].
    eexists; reflexivity. }
  destruct Hl as (logits & Hl).
  rewrite (bind_returns _ _ _ _ _ Hl).
  rewrite (bind_returns _ _ _ _ _ Hvm).
  simpl resolve_positions. simpl for_each.
  apply bind_raises.
  set (pos := Z.of_nat (length (unstructured_logits t0))).
  unfold top_tokens_at.
  rewrite (bind_returns get _ t2 t2 t2 eq_refl).
  assert (Hskip : (Z.of_nat (length (unstructured_logits t2)) <=? pos) = false).
  { apply Z.leb_gt. rewrite Hu2, Hu, length_app. simpl. subst pos. lia. }
  rewrite Hskip.
  destruct (sequence_up_to_total t2 (Some pos)) as [text Htext].
  { congruence. }
  { intros d' Hd'. apply Hdt. congruence. }
  rewrite (bind_returns _ _ _ _ _ Htext).
  simpl unstructured. simpl structured.
  destruct (index_int_total (map softmax (unstructured_logits t)) pos)
    as (u_probs & Hup & _).
  { rewrite length_map, Hu, length_app. simpl. subst pos. lia. }
  rewrite (bind_returns _ _ _ _ _ (lift_returns _ t2 _ Hup)).
  apply bind_raises. unfold lift.
  assert (Hpos : pos = Z.of_nat (length (map softmax (structured_logits t)))).
  { rewrite length_map, Hs, <- Hlen. reflexivity. }
  rewrite Hpos, index_int_at_length. reflexivity.
Qed.

End FailedStep.

(** ** Concrete runs of the further properties *)

(** A call through a delegate returns what the delegate returns. *)
Lemma X1_witness :
  exists (t' : LogitTracker ZNum),
    process_logits [[0; 1]] [[4; 5; 6]] (init (Some passing_delegate))
      = (Ok [[4; 5; 6]], t') /\
    delegate_process_logits passing_delegate [[0; 1]] [[4; 5; 6]]
      = Ok [[4; 5; 6]] /\
    unstructured_logits t' = [[4; 5; 6]] /\
    structured_logits t' = [[4; 5; 6]].
Proof.
  eexists. split; [reflexivity |].
  destruct (X1_process_logits_transparent (N:=ZNum) [[0; 1]] [[4; 5; 6]]
              (init (Some passing_delegate)) _ [[4; 5; 6]] eq_refl)
    as (Hd & row & prow & Hrow & Hprow & Hu & Hs).
  split; [exact Hd |].
  inversion Hrow; inversion Hprow; subst. split; [exact Hu | exact Hs].
Defined.

Lemma X2_witness :
  exists outs (t' : LogitTracker ZNum),
    process_all three_calls (init None) = (Ok outs, t') /\
    length outs = 3%nat /\
    unstructured_logits t' = [[1; 1; 1]; [1; 1; 1]; [1; 1; 1]] /\
    structured_logits t' = map (hd []) outs.
Proof.
  assert (Hrun : exists outs (t' : LogitTracker ZNum),
            process_all three_calls (init None) = (Ok outs, t'))
    by (do 2 eexists; vm_compute; reflexivity).
  destruct Hrun as (outs & t' & Hrun).
  exists outs, t'. split; [exact Hrun |].
  exact (X2_stores_in_call_order (N:=ZNum) None three_calls outs t' Hrun).
Defined.

Lemma X3_witness :
  exists outs (t' : LogitTracker ZNum),
    process_all three_calls (init None) = (Ok outs, t') /\
    outs = map snd three_calls /\
    structured_logits t' = unstructured_logits t'.
Proof.
  assert (Hrun : exists outs (t' : LogitTracker ZNum),
            process_all three_calls (init None) = (Ok outs, t'))
    by (do 2 eexists; vm_compute; reflexivity).
  destruct Hrun as (outs & t' & Hrun).
  exists outs, t'. split; [exact Hrun |].
  exact (X3_unconstrained_stores_equal (N:=ZNum) three_calls outs t' Hrun).
Defined.

Lemma X4_witness :
  _started (one_step abc_tokenizer) = true /\
  process_logits [] [[7; 7; 7; 7; 7]] (one_step abc_tokenizer) =
    (Raise IndexError,
     set_unstructured_logits [[2; -1; 1; 0; 3]; [7; 7; 7; 7; 7]]
       (one_step abc_tokenizer)).
Proof.
  split; [reflexivity |].
  exact (X4_empty_history_after_start (N:=ZNum) (one_step abc_tokenizer)
           [7; 7; 7; 7; 7] eq_refl).
Defined.

Lemma X5_witness :
  exists r (t' : LogitTracker ZNum),
    process_all three_calls (one_step abc_tokenizer) = (r, t') /\
    (exists more, unstructured_logits t' = [[2; -1; 1; 0; 3]] ++ more) /\
    tokenizer t' = Some abc_tokenizer /\
    _started t' = true.
Proof.
  assert (Hrun : exists r (t' : LogitTracker ZNum),
            process_all three_calls (one_step abc_tokenizer) = (r, t'))
    by (do 2 eexists; vm_compute; reflexivity).
  destruct Hrun as (r & t' & Hrun).
  exists r, t'. split; [exact Hrun |].
  destruct (X5_calls_only_append (N:=ZNum) three_calls
              (one_step abc_tokenizer) t' r Hrun)
    as (Hu & _ & _ & _ & Htk & _ & Hst).
  split; [exact Hu |]. split; [exact Htk | exact (Hst eq_refl)].
Defined.


Lemma X7_witness :
  exists out (t1 t2 : LogitTracker ZNum),
    _started after_three_calls = true /\
    (1 < length [0; 1; 2; 3])%nat /\
    clear after_three_calls = (Ok tt, t1) /\
    process_logits [[0; 1; 2; 3]] [[1; 1; 1]] t1 = (Ok out, t2) /\
    chosen_tokens t2 = [3] /\
    length (unstructured_logits t2) = 1%nat /\
    length (structured_logits t2) = 1%nat.
Proof.
  assert (Hh : (1 < length [0; 1; 2; 3])%nat) by (simpl; lia).
  do 3 eexists. split; [reflexivity |]. split; [exact Hh |].
  split; [reflexivity |]. split; [reflexivity |].
  apply (X7_clear_then_call_logs_at_once (N:=ZNum) after_three_calls _ _
           [0; 1; 2; 3] [[1; 1; 1]] _ eq_refl Hh eq_refl eq_refl).
Defined.

Lemma X8_witness :
  unstructured_logits (init (N:=ZNum) None) = [] /\
  get_top_tokens 2 AllPositions true (init (N:=ZNum) None)
    = (Raise (ValueError NumpyShape), init None).
Proof.
  split; [reflexivity |].
  destruct (X8_queries_on_empty_tracker (init (N:=ZNum) None) eq_refl)
    as (_ & _ & Htop & _).
  apply Htop.
Defined.

Lemma X9_witness :
  exists reports t' vocab,
    get_top_tokens 2 AllPositions true after_three_calls = (Ok reports, t') /\
    vocab_tokens t' = Some vocab /\
    map text_so_far reports = [""; "b"; "bc"] /\
    Forall (fun r => sequence_up_to (Some (position r)) after_three_calls
                     = (Ok (text_so_far r), after_three_calls)) reports.
Proof.
  destruct (X9_reports_coherent (N:=ZNum) 2 AllPositions true
              after_three_calls _ _ eq_refl)
    as (vocab & Hv & Hall).
  do 2 eexists. exists vocab.
  split; [vm_compute; reflexivity |]. split; [exact Hv |].
  split; [reflexivity |].
  eapply Forall_impl; [| exact Hall]. intros r [H _]. exact H.
Defined.

Lemma X10_witness :
  decoding_tokenizer after_three_calls = Some abc_tokenizer /\
  (forall ids, decode abc_tokenizer ids = map abc_name ids) /\
  sequence_up_to (Some 1) after_three_calls = (Ok "b", after_three_calls) /\
  sequence_up_to None after_three_calls
    = (Ok ("b" ++ "c")%string, after_three_calls).
Proof.
  assert (Hd : decoding_tokenizer after_three_calls = Some abc_tokenizer)
    by reflexivity.
  assert (Hn : forall ids, decode abc_tokenizer ids = map abc_name ids)
    by (intros; reflexivity).
  split; [exact Hd |]. split; [exact Hn |].
  exact (X10_sequence_splits (N:=ZNum) after_three_calls abc_tokenizer
           abc_name 1 Hd Hn).
Defined.


(** At position 0 the chosen token is 1, whose string is "b". *)
Lemma X12_witness :
  exists reports t' r,
    get_top_tokens 3 AllPositions false after_three_calls = (Ok reports, t') /\
    In r reports /\
    position r = 0 /\
    nth_error (chosen_tokens after_three_calls) 0 = Some 1 /\
    Forall (fun e => is_chosen e = String.eqb (token e) "b") (tokens r).
Proof.
  assert (Hrun : exists reports t' r,
            get_top_tokens 3 AllPositions false after_three_calls
              = (Ok reports, t') /\
            In r reports /\ position r = 0).
  { do 3 eexists. split; [vm_compute; reflexivity |].
    split; [left; reflexivity | reflexivity]. }
  destruct Hrun as (reports & t' & r & Hrun & Hin & Hpos).
  exists reports, t', r.
  split; [exact Hrun |]. split; [exact Hin |]. split; [exact Hpos |].
  split; [reflexivity |].
  assert (Hn : forall ids, decode abc_tokenizer ids = map abc_name ids)
    by (intros; reflexivity).
  assert (Hrange : 0 <= position r
                   < Z.of_nat (length (structured_logits after_three_calls)) - 1)
    by (rewrite Hpos; simpl; lia).
  assert (Hc : nth_error (chosen_tokens after_three_calls)
                 (Z.to_nat (position r)) = Some 1)
    by (rewrite Hpos; reflexivity).
  pose proof (X12_is_chosen_marks_chosen_token (N:=ZNum) 3 AllPositions false
                after_three_calls t' reports r abc_tokenizer abc_name 1
                Hrun Hin eq_refl eq_refl Hn eq_refl Hrange Hc) as Hall.
  eapply Forall_impl; [| exact Hall]. intros e [H _]. exact H.
Defined.

Lemma X13_witness :
  exists values rows t' vocab,
    get_logits after_three_calls = (Ok values, after_three_calls) /\
    _to_dataframe true values None after_three_calls = (Ok rows, t') /\
    vocab_tokens t' = Some vocab /\
    length rows = 9%nat /\
    Forall (fun r => row_position r = 2%nat -> chosen r = false) rows.
Proof.
  assert (Hrun : exists values rows t',
            get_logits after_three_calls = (Ok values, after_three_calls) /\
            _to_dataframe true values None after_three_calls = (Ok rows, t') /\
            length rows = 9%nat).
  { do 3 eexists. split; [vm_compute; reflexivity |].
    split; [vm_compute; reflexivity | reflexivity]. }
  destruct Hrun as (values & rows & t' & Hv & Hrun & Hlen).
  destruct (X13_chosen_column (N:=ZNum) true values None after_three_calls
              t' rows Hrun) as (vocab & Hvocab & Hall).
  exists values, rows, t', vocab.
  split; [exact Hv |]. split; [exact Hrun |]. split; [exact Hvocab |].
  split; [exact Hlen |].
  eapply Forall_impl; [| exact Hall].
  intros r Hr Hpos. cbv beta in Hr. rewrite Hpos in Hr. exact Hr.
Defined.

(** After a first call that passes, the delegate raises on the second. *)
Lemma X16_witness :
  consistent 3 flaky_one_step /\
  processor flaky_one_step = Some flaky_delegate /\
  delegate_process_logits flaky_delegate [[0; 1]] [[4; 5; 6]]
    = Raise (DelegateRaised "boom") /\
  length [4; 5; 6] = 3%nat /\
  exists t t2,
    process_logits [[0; 1]] [[4; 5; 6]] flaky_one_step
      = (Raise (DelegateRaised "boom"), t) /\
    get_top_tokens 2 (OnePosition 1) true t = (Raise IndexError, t2) /\
    resolve_positions AllPositions t = [0].
Proof.
  assert (Hc : consistent 3 flaky_one_step).
  { unfold consistent. simpl.
    split; [discriminate |]. split; [reflexivity |].
    split; [repeat constructor |]. split; [repeat constructor |].
    split; [| split; [constructor |]].
    - exists abc_tokenizer. split; [reflexivity |]. intros i _. discriminate.
    - intros d Hd. inversion Hd; subst. discriminate. }
  split; [exact Hc |]. split; [reflexivity |].
  split; [reflexivity |]. split; [reflexivity |].
  exact (X16_failed_step_position_raises (N:=ZNum) flaky_one_step 3
           flaky_delegate [0; 1] [4; 5; 6] (DelegateRaised "boom") 2 true
           Hc eq_refl eq_refl eq_refl).
Defined.
